(** * Verification of [sort_vs_settings.py]

    A shallow embedding of the Visual Studio settings sorter: the recursive
    normalizer [sort_children_recursively], the sort key
    [sort_key_for_element], the formatter [format_xml_output] with its inner
    [indent_xml], and the driver [process_settings_file].

    Python values are modelled as follows.
    - [str] is a sequence of Unicode code points ([list N]); comparison is
      the code-point-wise lexicographic order Python uses for [<].
    - [Optional[str]] ([elem.text], [elem.tail], the result of [elem.get])
      is [option str].
    - [xml.etree.ElementTree.Element] is a tree with a tag, an attribute
      dictionary kept as an association list in insertion order, [text],
      [tail] and the ordered list of children.  A parsed document is a tree:
      no element is shared between two parents, so in-place mutation is
      rendered as a function returning the mutated tree.
    - The interpreter's bound on the depth of recursion is not modelled:
      both recursions go as deep as the tree is.
    - The parser, the file system and the serializer of the library are the
      environment of [process_settings_file]; what they return is a
      parameter, what the program does with them is a trace of events. *)

From Stdlib Require Import List NArith Bool Arith Lia String Ascii.
From Stdlib Require Import Permutation Sorted.
Import ListNotations.

Set Implicit Arguments.
Set Warnings "-register-all".

(* ================================================================== *)
(** ** Python strings *)

Module PyStr.

Definition str := list N.

(** A literal of the source, character by character. *)
Definition lit (s : string) : str :=
  List.map N_of_ascii (list_ascii_of_string s).

Fixpoint eqb (a b : str) : bool :=
  match a, b with
  | [], [] => true
  | x :: a', y :: b' => N.eqb x y && eqb a' b'
  | _, _ => false
  end.

(** [a < b] on Python strings. *)
Fixpoint ltb (a b : str) : bool :=
  match a, b with
  | _, [] => false
  | [], _ :: _ => true
  | x :: a', y :: b' =>
      if N.ltb x y then true
      else if N.eqb x y then ltb a' b' else false
  end.

(** [not (b < a)], the order a sorted list of keys is in. *)
Definition leb (a b : str) : bool := negb (ltb b a).

(** [bool(s)]: a string is truthy when it is not empty. *)
Definition truthy (s : str) : bool :=
  match s with [] => false | _ :: _ => true end.

(** [c.isspace()], the characters [str.strip()] removes: the code points
    Python classifies as whitespace. *)
Definition isspace (c : N) : bool :=
  (((9 <=? c) && (c <=? 13)) || ((28 <=? c) && (c <=? 32))
   || (c =? 133) || (c =? 160) || (c =? 5760)
   || ((8192 <=? c) && (c <=? 8202))
   || (c =? 8232) || (c =? 8233) || (c =? 8239) || (c =? 8287)
   || (c =? 12288))%N.

Fixpoint lstrip (s : str) : str :=
  match s with
  | [] => []
  | c :: s' => if isspace c then lstrip s' else s
  end.

Definition rstrip (s : str) : str := rev (lstrip (rev s)).

Definition strip (s : str) : str := rstrip (lstrip s).

(** ["\t" * level] *)
Definition tabs (level : nat) : str := repeat 9%N level.

Definition newline : N := 10%N.

End PyStr.

Import PyStr.

(* ================================================================== *)
(** ** Elements *)

Inductive Element : Type :=
  mkElement (tag : str) (attrib : list (str * str))
            (text tail : option str) (children : list Element).

Definition tag (e : Element) : str :=
  match e with mkElement t _ _ _ _ => t end.
Definition attrib (e : Element) : list (str * str) :=
  match e with mkElement _ a _ _ _ => a end.
Definition text (e : Element) : option str :=
  match e with mkElement _ _ x _ _ => x end.
Definition tail (e : Element) : option str :=
  match e with mkElement _ _ _ x _ => x end.
Definition children (e : Element) : list Element :=
  match e with mkElement _ _ _ _ c => c end.

(** [elem.tail = v] *)
Definition set_tail (v : option str) (e : Element) : Element :=
  match e with mkElement t a x _ c => mkElement t a x v c end.

(** Lookup in the attribute dictionary. *)
Fixpoint dict_get (d : list (str * str)) (k : str) : option str :=
  match d with
  | [] => None
  | (k', v) :: d' => if eqb k' k then Some v else dict_get d' k
  end.

(** [element.get(key)]: [None] when the attribute is absent. *)
Definition get (e : Element) (key : str) : option str :=
  dict_get (attrib e) key.

(** [element.get(key, default)] *)
Definition get_default (e : Element) (key default : str) : str :=
  match get e key with
  | Some v => v
  | None => default
  end.

(** Truth value of an [Optional[str]]: [None] and the empty string are falsy. *)
Definition opt_truthy (o : option str) : bool :=
  match o with
  | Some s => truthy s
  | None => false
  end.

(** All elements of the tree in document order, as [elem.iter()] yields
    them. *)
Fixpoint iter (e : Element) : list Element :=
  match e with
  | mkElement _ _ _ _ c => e :: flat_map iter c
  end.

Fixpoint height (e : Element) : nat :=
  match e with
  | mkElement _ _ _ _ c => S (fold_right (fun x m => Nat.max (height x) m) 0 c)
  end.

(* ================================================================== *)
(** ** [list.sort(key=...)]

    Python's [list.sort] is a stable sort that compares keys with [<] only.
    The result of a stable sort is determined by its input (lemma
    [stable_sorted_unique] below), so it is modelled by the stable insertion
    sort. *)

Section ListSort.

Variable A : Type.
Variable key : A -> str.

(** [x] is put in front of the first element whose key is not smaller. *)
Fixpoint insert (x : A) (l : list A) : list A :=
  match l with
  | [] => [x]
  | y :: l' =>
      if ltb (key y) (key x) then y :: insert x l' else x :: y :: l'
  end.

Definition list_sort (l : list A) : list A := fold_right insert [] l.

Definition key_le (x y : A) : Prop := leb (key x) (key y) = true.

Definition has_key (k : str) (x : A) : bool := eqb (key x) k.

End ListSort.

(* ================================================================== *)
(** ** The normalizer *)

Definition sortable_tags : list str :=
  [lit "PropertyValue"; lit "ToolsOptionsCategory";
   lit "ToolsOptionsSubCategory"; lit "Category"].

(** [element.get('name', element.get('GUID', ''))] *)
Definition sort_key_for_element (element : Element) : str :=
  get_default element (lit "name") (get_default element (lit "GUID") []).

(** [child.tag in sortable_tags and (child.get('name') or child.get('GUID'))] *)
Definition is_sortable (child : Element) : bool :=
  existsb (eqb (tag child)) sortable_tags
  && (opt_truthy (get child (lit "name"))
      || opt_truthy (get child (lit "GUID"))).

(** One round of the loop of lines 41-45: the pair is
    [(sortable_children, other_children)]. *)
Definition classify (acc : list Element * list Element) (child : Element)
  : list Element * list Element :=
  if is_sortable child
  then (fst acc ++ [child], snd acc)
  else (fst acc, snd acc ++ [child]).

Definition partition_children (children_list : list Element)
  : list Element * list Element :=
  fold_left classify children_list ([], []).

(** Lines 37-60: the new child sequence of an element.  The loop of lines
    51-52 removes every child, so the two [append] loops rebuild the
    sequence from the empty one. *)
Definition reorder (children_list : list Element) : list Element :=
  let (sortable_children, other_children) := partition_children children_list in
  let sortable_children := list_sort sort_key_for_element sortable_children in
  let element := @nil Element in
  let element := element ++ other_children in
  let element := element ++ sortable_children in
  element.

(** The recursion of lines 62-64 visits the children in their new order,
    which is not a structural sub-term of the element; [fuel] bounds the
    depth of the recursion and [sort_children_recursively] supplies the
    height of the tree, which is enough (lemma
    [sort_children_recursively_eq]). *)
Fixpoint sort_children_fuel (fuel : nat) (element : Element) : Element :=
  match fuel with
  | 0 => element
  | S fuel' =>
      match element with
      | mkElement t a x y c =>
          mkElement t a x y (List.map (sort_children_fuel fuel') (reorder c))
      end
  end.

Definition sort_children_recursively (element : Element) : Element :=
  sort_children_fuel (height element) element.

(* ================================================================== *)
(** ** The formatter *)

(** [not s or not s.strip()] for [s = elem.text] or [s = elem.tail]. *)
Definition is_blank (s : option str) : bool :=
  match s with
  | None => true
  | Some s => negb (truthy s) || negb (truthy (strip s))
  end.

(** Apply [f] to the last element of a list: after the loop of lines 79-80
    the variable [child] is bound to the last child. *)
Fixpoint on_last (A : Type) (f : A -> A) (l : list A) : list A :=
  match l with
  | [] => []
  | [x] => [f x]
  | x :: l' => x :: on_last f l'
  end.

(** Lines 81-82, with [indent] the string [f"\n{indent_str}"]. *)
Definition close_tail (indent : str) (child : Element) : Element :=
  if is_blank (tail child) then set_tail (Some indent) child else child.

Fixpoint indent_xml (elem : Element) (level : nat) : Element :=
  let indent_str := tabs level in
  match elem with
  | mkElement t a x y c =>
      match c with
      | _ :: _ =>
          let x := if is_blank x then Some (newline :: indent_str ++ tabs 1) else x in
          let y := if is_blank y then Some (newline :: indent_str) else y in
          let c := List.map (fun child => indent_xml child (S level)) c in
          let c := on_last (close_tail (newline :: indent_str)) c in
          mkElement t a x y c
      | [] =>
          if negb (Nat.eqb level 0) && is_blank y
          then mkElement t a x (Some (newline :: indent_str)) c
          else elem
      end
  end.

(** *** Serialization

    [ET.tostring] belongs to the Python library.  Its writer is modelled
    after [ElementTree.write] and [_serialize_xml]: an optional declaration
    followed by the serialized root.  The library's [_namespaces], which
    computes for the tree the qualified name every tag and attribute name is
    written as (the name itself in a document without namespaces) and the
    namespace declarations put on the root, and its two escaping functions
    are parameters.  A parsed tree has only elements with string tags, so
    the comment and processing-instruction cases of the serializer do not
    arise. *)

Inductive Encoding : Type :=
| Unicode                 (* encoding.lower() == "unicode" *)
| Utf8
| UsAscii
| OtherEncoding (name : str).

Definition encoding_name (e : Encoding) : str :=
  match e with
  | Unicode => lit "unicode"
  | Utf8 => lit "utf-8"
  | UsAscii => lit "us-ascii"
  | OtherEncoding n => n
  end.

Definition quot : N := 34%N.

Section Serializer.

Variable ET_namespaces : Element -> (str -> str) * list (str * str).
Variable escape_cdata escape_attrib : str -> str.

(** [if text: write(_escape_cdata(text))] *)
Definition opt_text (s : option str) : str :=
  match s with
  | Some s => if truthy s then escape_cdata s else []
  | None => []
  end.

(** An item [(uri, prefix)] of [namespaces]. *)
Definition xmlns_item (item : str * str) : str :=
  let (v, k) := item in
  let k := if truthy k then lit ":" ++ k else k in
  lit " xmlns" ++ k ++ lit "=" ++ [quot] ++ escape_attrib v ++ [quot].

Definition attrib_item (qnames : str -> str) (item : str * str) : str :=
  let (k, v) := item in
  lit " " ++ qnames k ++ lit "=" ++ [quot] ++ escape_attrib v ++ [quot].

(** [_serialize_xml]; [namespaces] is passed for the root only and is
    written in the order of the prefixes. *)
Fixpoint serialize_xml (qnames : str -> str) (namespaces : list (str * str))
         (short_empty_elements : bool) (elem : Element) : str :=
  match elem with
  | mkElement t a x y c =>
      let tag := qnames t in
      (lit "<" ++ tag)
      ++ flat_map xmlns_item (list_sort (@snd str str) namespaces)
      ++ flat_map (attrib_item qnames) a
      ++ (if opt_truthy x || negb (Nat.eqb (List.length c) 0)
             || negb short_empty_elements
          then lit ">" ++ opt_text x
               ++ flat_map (serialize_xml qnames [] short_empty_elements) c
               ++ lit "</" ++ tag ++ lit ">"
          else lit " />")
      ++ opt_text y
  end.

(** The test of [ElementTree.write] for writing the declaration:
    [xml_declaration or (xml_declaration is None and
     encoding.lower() != "unicode" and
     declared_encoding.lower() not in ("utf-8", "us-ascii"))]. *)
Definition writes_declaration (xml_declaration : option bool)
           (encoding declared_encoding : Encoding) : bool :=
  match xml_declaration with
  | Some b => b
  | None =>
      match encoding, declared_encoding with
      | Unicode, _ => false
      | _, (Utf8 | UsAscii) => false
      | _, _ => true
      end
  end.

Definition ElementTree_write (encoding declared_encoding : Encoding)
           (xml_declaration : option bool) (short_empty_elements : bool)
           (root : Element) : str :=
  (if writes_declaration xml_declaration encoding declared_encoding
   then lit "<?xml version='1.0' encoding='"
        ++ encoding_name declared_encoding ++ lit "'?>" ++ [newline]
   else [])
  ++ (let (qnames, namespaces) := ET_namespaces root in
      serialize_xml qnames namespaces short_empty_elements root).

(** [ET.tostring(element, encoding='unicode')]: the text writer declares
    utf-8, no declaration is asked for, empty elements are short. *)
Definition tostring_unicode (element : Element) : str :=
  ElementTree_write Unicode Utf8 None true element.

(** [format_xml_output] mutates the tree and returns the text: both are
    returned. *)
Definition format_xml_output (root : Element) : Element * str :=
  let root := indent_xml root 0 in
  (root, tostring_unicode root).

End Serializer.

(** [s.startswith(p)] *)
Fixpoint startswith (p s : str) : bool :=
  match p, s with
  | [], _ => true
  | a :: p', b :: s' => N.eqb a b && startswith p' s'
  | _ :: _, [] => false
  end.

(* ================================================================== *)
(** ** The driver

    The effects of [process_settings_file] are recorded as a trace; the
    exceptions it handles are values of [exn]; [sys.exit] ends the run
    with a status. *)

Inductive exn : Type :=
| ParseError (msg : str)
| FileNotFoundError (msg : str)
| OtherException (msg : str).

Inductive event : Type :=
| EvRegisterNamespace (prefix uri : str)        (* ET.register_namespace *)
| EvParse (path : str)                          (* ET.parse(path) *)
| EvWrite (path : option str) (content : str)   (* open(path,'w'), f.write *)
| EvStdout (line : str)                         (* print(line) *)
| EvStderr (line : str).                        (* print(line, file=sys.stderr) *)

Inductive result (A : Type) : Type :=
| Return (a : A)
| Raise (e : exn)
| SysExit (status : nat).

Arguments Return {A} a.
Arguments Raise {A} e.
Arguments SysExit {A} status.

Module Run.

(** A computation extends the trace and returns, raises or exits. *)
Definition M (A : Type) : Type := list event -> list event * result A.

Definition ret (A : Type) (a : A) : M A := fun tr => (tr, Return a).

Definition bind (A B : Type) (m : M A) (k : A -> M B) : M B :=
  fun tr =>
    match m tr with
    | (tr', Return a) => k a tr'
    | (tr', Raise e) => (tr', Raise e)
    | (tr', SysExit n) => (tr', SysExit n)
    end.

Definition emit (ev : event) : M unit := fun tr => (tr ++ [ev], Return tt).

Definition sys_exit {A : Type} (status : nat) : M A :=
  fun tr => (tr, SysExit status).

(** An effect of the environment: it is recorded, then returns or
    raises. *)
Definition perform (A : Type) (ev : event) (r : exn + A) : M A :=
  fun tr =>
    match r with
    | inr a => (tr ++ [ev], Return a)
    | inl e => (tr ++ [ev], Raise e)
    end.

(** [try: body except ...: handler] *)
Definition try_except (A : Type) (body : M A) (handler : exn -> M A) : M A :=
  fun tr =>
    match body tr with
    | (tr', Raise e) => handler e tr'
    | r => r
    end.

Definition run (A : Type) (m : M A) : list event * result A := m [].

End Run.

Notation "x <- m ;; k" := (Run.bind m (fun x => k))
  (at level 61, m at next level, right associativity).
Notation "m ;;; k" := (Run.bind m (fun _ => k))
  (at level 61, right associativity).

Section Driver.

(** The environment: what parsing a path gives (the tree, or the
    exception raised on opening or parsing the file), what opening a path
    for writing and writing a text to it gives, and the serializer's
    parameters, [_namespaces] being the library's with the prefix of line
    101 registered. *)
Variable ET_parse : str -> exn + Element.
Variable write_file : option str -> str -> exn + unit.
Variable ET_namespaces : Element -> (str -> str) * list (str * str).
Variable escape_cdata escape_attrib : str -> str.

(** [f"{output_file}"] *)
Definition format_path (p : option str) : str :=
  match p with
  | Some s => s
  | None => lit "None"
  end.

Definition process_settings_file (input_file : str)
           (output_file : option str) : Run.M unit :=
  Run.try_except
    (Run.emit (EvRegisterNamespace
                 [] (lit "http://www.w3.org/XML/1998/namespace")) ;;;
     root <- Run.perform (EvParse input_file) (ET_parse input_file) ;;
     let root := sort_children_recursively root in
     let (root, xml_output) :=
       format_xml_output ET_namespaces escape_cdata escape_attrib root in
     Run.perform (EvWrite output_file xml_output)
                 (write_file output_file xml_output) ;;;
     Run.emit (EvStdout (lit "Sorted settings written to: "
                         ++ format_path output_file)))
    (fun e =>
       match e with
       | ParseError msg =>
           Run.emit (EvStderr (lit "Error parsing XML file: " ++ msg)) ;;;
           Run.sys_exit 1
       | FileNotFoundError _ =>
           Run.emit (EvStderr (lit "Error: Input file '" ++ input_file
                               ++ lit "' not found")) ;;;
           Run.sys_exit 1
       | OtherException msg =>
           Run.emit (EvStderr (lit "Unexpected error: " ++ msg)) ;;;
           Run.sys_exit 1
       end).

End Driver.

(* ================================================================== *)
(** ** Vocabulary of the properties *)

(** A child that is not sorted: its tag is not a sortable tag, or it has
    neither a non-empty [name] nor a non-empty [GUID]. *)
Definition is_other (child : Element) : bool := negb (is_sortable child).

(** An attribute that is not there, or is there with the empty value. *)
Definition absent_or_empty (o : option str) : Prop := o = None \/ o = Some [].

(** The sort key in the words of the specification: the value of [name] if
    present and non-empty, otherwise the value of [GUID] if present and
    non-empty, otherwise the empty string. *)
Definition spec_sort_key (e : Element) : str :=
  match get e (lit "name") with
  | Some (c :: s) => c :: s
  | _ =>
      match get e (lit "GUID") with
      | Some (c :: s) => c :: s
      | _ => []
      end
  end.

(** What an element carries besides its children. *)
Definition label (e : Element) : str * list (str * str) * option str * option str :=
  (tag e, attrib e, text e, tail e).

(** [same_nodes e e']: [e'] is [e] with the children of every element
    permuted; nothing else differs. *)
Inductive same_nodes : Element -> Element -> Prop :=
| same_nodes_intro t a x y c l c' :
    Permutation c l -> Forall2 same_nodes l c' ->
    same_nodes (mkElement t a x y c) (mkElement t a x y c').

(** [before x y l]: an occurrence of [x] precedes an occurrence of [y]. *)
Definition before (A : Type) (x y : A) (l : list A) : Prop :=
  exists l1 l2 l3, l = l1 ++ x :: l2 ++ y :: l3.

(** A qualified name that can open an element: it is not empty and does not
    start with a question mark. *)
Definition opens_element (q : str) : Prop :=
  match q with
  | [] => False
  | c :: _ => c <> 63%N
  end.

(** [f"\n{'\t' * level}"] *)
Definition nl_indent (level : nat) : str := newline :: tabs level.

(** What formatting may do to a field: one with content is kept as it is,
    a blank one stays blank. *)
Definition kept (old new : option str) : Prop :=
  if is_blank old then is_blank new = true else new = old.

(** The same element as far as content goes: tag, attributes, the [text]
    and [tail] that have content, number of children. *)
Definition same_content (old new : Element) : Prop :=
  tag new = tag old /\ attrib new = attrib old
  /\ kept (text old) (text new) /\ kept (tail old) (tail new)
  /\ List.length (children new) = List.length (children old).

(** The elements of a tree, each with its nesting level. *)
Fixpoint with_levels (level : nat) (e : Element) : list (nat * Element) :=
  match e with
  | mkElement _ _ _ _ c => (level, e) :: flat_map (with_levels (S level)) c
  end.

(** An element with children is indented when its [text], if blank, is a
    newline and one tab more than its level, and the [tail] of its last
    child, if blank, is a newline and as many tabs as its level. *)
Definition indented_parent (le : nat * Element) : Prop :=
  let (level, e) := le in
  children e <> [] ->
  (is_blank (text e) = true -> text e = Some (nl_indent (S level)))
  /\ exists c child,
      children e = c ++ [child]
      /\ (is_blank (tail child) = true -> tail child = Some (nl_indent level)).

(** Forget the [text] and [tail] fields that hold no content. *)
Definition content_of (s : option str) : option str :=
  if is_blank s then None else s.

Fixpoint erase_blank (e : Element) : Element :=
  match e with
  | mkElement t a x y c =>
      mkElement t a (content_of x) (content_of y) (List.map erase_blank c)
  end.

(* ================================================================== *)
(** ** Sample documents *)

Module Samples.

Local Open Scope string_scope.

Definition leaf (t : string) (a : list (string * string)) : Element :=
  mkElement (lit t) (List.map (fun kv => (lit (fst kv), lit (snd kv))) a)
            None None [].

Definition node (t : string) (a : list (string * string))
           (c : list Element) : Element :=
  mkElement (lit t) (List.map (fun kv => (lit (fst kv), lit (snd kv))) a)
            None None c.

(** A [Category] whose [name] is present and empty and whose [GUID] is
    [A]. *)
Definition empty_name : Element :=
  leaf "Category" [("name", EmptyString); ("GUID", "A")].

(** [<Root><Category name="Z"/><Category name="A"/><Other/></Root>] *)
Definition root_zao : Element :=
  node "Root" []
       [leaf "Category" [("name", "Z")]; leaf "Category" [("name", "A")];
        leaf "Other" []].

(** Two categories named [X] told apart by a second attribute, around
    other children, one level down. *)
Definition nested : Element :=
  node "UserSettings" []
       [node "Category" [("name", "B")]
             [leaf "PropertyValue" [("name", "X"); ("id", "1")];
              leaf "Note" [];
              leaf "PropertyValue" [("name", "A")];
              leaf "PropertyValue" [];
              leaf "PropertyValue" [("name", "X"); ("id", "2")]];
        leaf "ApplicationIdentity" [("version", "17.0")];
        node "Category" [("GUID", "{1}")] []].

(** [<a>hello<b/>tail text</a>] with a whitespace-only tail on the root. *)
Definition with_text : Element :=
  mkElement (lit "a") [] (Some (lit "hello")) (Some (lit "  "))
            [mkElement (lit "b") [] None (Some (lit "tail text")) []].

(** An environment: a document without namespaces, so every name is
    written as it is, a parser that rejects its input, a file system that
    accepts every write. *)
Definition plain_namespaces (root : Element)
  : (str -> str) * list (str * str) := (fun q => q, []).

Definition escape_none (s : str) : str := s.

Definition rejecting_parse (path : str) : exn + Element :=
  inl (ParseError (lit "syntax error: line 1, column 0")).

Definition accepting_write (path : option str) (content : str)
  : exn + unit := inr tt.

End Samples.

(* ================================================================== *)
(** ** The command line

    [main] validates the two arguments and calls [process_settings_file].
    What [argparse] makes of the command line, and the functions of [os] and
    [os.path] that look at the file system or depend on the platform, are
    the environment. *)

(** [s.endswith(suffix)] *)
Definition endswith (suffix s : str) : bool := startswith (rev suffix) (rev s).

Module Args.

Record Namespace : Type := mk { input_file : str; output : str }.

End Args.

Section Main.

Variable ET_parse : str -> exn + Element.
Variable write_file : option str -> str -> exn + unit.
Variable ET_namespaces : Element -> (str -> str) * list (str * str).
Variable escape_cdata escape_attrib : str -> str.

(** [parser.parse_args()]: the namespace, or the status [argparse] exits
    with. *)
Variable parse_args : nat + Args.Namespace.
Variable expanduser abspath : str -> str.
Variable isfile isdir : str -> bool.
Variable getcwd : str.
Variable os_path_split : str -> str * str.
Variable os_path_join : str -> str -> str.

(** [print(line, file=sys.stderr)] then [sys.exit(1)]. *)
Definition fail (line : str) : Run.M unit :=
  Run.emit (EvStderr line) ;;; Run.sys_exit 1.

(** Lines 155-158 and 180-183. *)
Definition expand_path (path : str) : str :=
  if startswith (lit "~") path then expanduser path
  else if startswith (lit "./") path then abspath path
  else path.

Definition main : Run.M unit :=
  match parse_args with
  | inl status => Run.sys_exit status
  | inr args =>
      let input_file := strip (Args.input_file args) in
      if negb (truthy input_file)
      then fail (lit "Error: Input file must be specified")
      else if negb (endswith (lit ".vssettings") input_file)
      then fail (lit "Error: Input file must be a .vssettings file")
      else
        let input_file := expand_path input_file in
        if negb (isfile input_file)
        then fail (lit "Error: Input file '" ++ input_file
                   ++ lit "' does not exist")
        else
          let input_dir := fst (os_path_split input_file) in
          let input_dir := if eqb input_dir [] then getcwd else input_dir in
          if negb (truthy (Args.output args))
          then fail (lit "Error: Output file must be specified")
          else
            let output := strip (Args.output args) in
            if negb (truthy output)
            then fail (lit "Error: Output file must be specified")
            else
              let output := expand_path output in
              let (output_dir, output_file) := os_path_split output in
              let checked_dir :=
                if negb (truthy output_dir) then inr input_dir
                else if truthy output_dir && negb (isdir output_dir)
                     then inl (lit "Error: Output directory '" ++ output_dir
                               ++ lit "' does not exist")
                     else inr output_dir in
              match checked_dir with
              | inl line => fail line
              | inr output_dir =>
                  if endswith (lit ".vssettings") output_file
                  then fail (lit "Error: Output file should not have a "
                             ++ lit ".vssettings extension")
                  else process_settings_file
                         ET_parse write_file ET_namespaces
                         escape_cdata escape_attrib input_file
                         (Some (os_path_join output_dir output_file))
              end
  end.

End Main.

(* ================================================================== *)
(** ** Vocabulary of the further properties *)

(** Children in normal order: the other children, then the sortable ones
    with their keys in order. *)
Definition canonical_children (l : list Element) : Prop :=
  exists others sortables,
    l = others ++ sortables
    /\ Forall (fun c => is_other c = true) others
    /\ Forall (fun c => is_sortable c = true) sortables
    /\ StronglySorted (key_le sort_key_for_element) sortables.

(** A tree in normal form: the children of every element are in normal
    order. *)
Definition canonical (T : Element) : Prop :=
  Forall (fun q => canonical_children (children q)) (iter T).

(** The two in-place steps of a run, on the tree. *)
Definition processed (T : Element) : Element :=
  indent_xml (sort_children_recursively T) 0.

(** An element of a formatted tree is set apart from what follows it: below
    the root it has a non-empty [tail], and with children it has a non-empty
    [text] and a non-empty [tail]. *)
Definition set_apart (le : nat * Element) : Prop :=
  let (level, e) := le in
  (level <> 0 -> opt_truthy (tail e) = true)
  /\ (children e <> [] ->
      opt_truthy (text e) = true /\ opt_truthy (tail e) = true).

(** The line an exception is reported with (lines 117-124). *)
Definition report (input_file : str) (e : exn) : str :=
  match e with
  | ParseError msg => lit "Error parsing XML file: " ++ msg
  | FileNotFoundError _ =>
      lit "Error: Input file '" ++ input_file ++ lit "' not found"
  | OtherException msg => lit "Unexpected error: " ++ msg
  end.

(** What a trace holds of each kind of event. *)
Definition parsed_paths (tr : list event) : list str :=
  flat_map (fun ev => match ev with EvParse p => [p] | _ => [] end) tr.

Definition written_paths (tr : list event) : list (option str) :=
  flat_map (fun ev => match ev with EvWrite p _ => [p] | _ => [] end) tr.

Definition stdout_lines (tr : list event) : list str :=
  flat_map (fun ev => match ev with EvStdout s => [s] | _ => [] end) tr.

Definition stderr_lines (tr : list event) : list str :=
  flat_map (fun ev => match ev with EvStderr s => [s] | _ => [] end) tr.

(* ================================================================== *)
(** ** Sample environments *)

Module SampleEnv.

(** A parser that accepts every path and returns the sample document. *)
Definition accepting_parse (path : str) : exn + Element :=
  inr Samples.root_zao.

(** A file system whose writes fail for want of the directory. *)
Definition missing_dir_write (path : option str) (content : str)
  : exn + unit := inl (FileNotFoundError (lit "No such file or directory")).

(** A POSIX-like [os.path] on paths without a directory part, in a current
    directory [/work] where every file exists. *)
Definition expanduser (path : str) : str := path.
Definition abspath (path : str) : str := lit "/work/" ++ path.
Definition isfile (path : str) : bool := true.
Definition isdir (path : str) : bool := true.
Definition getcwd : str := lit "/work".
Definition os_path_split (path : str) : str * str := ([], path).
Definition os_path_join (dir file : str) : str := dir ++ lit "/" ++ file.

(** [prog in.vssettings -o out.xml] *)
Definition good_args : nat + Args.Namespace :=
  inr (Args.mk (lit "in.vssettings") (lit "out.xml")).

(** [prog "   " -o out.xml] *)
Definition blank_args : nat + Args.Namespace :=
  inr (Args.mk (lit "   ") (lit "out.xml")).

(** A document with none of the sortable tags. *)
Definition plain_doc : Element :=
  Samples.node "Root" []
    [Samples.leaf "B" [("name", "Z")]; Samples.leaf "A" [("name", "A")]]%string.

End SampleEnv.

(* ================================================================== *)
(** * Properties *)

(** ** The order on strings *)

Module PyStrFacts.

Ltac cmpN :=
  repeat match goal with
    | |- context [N.ltb ?x ?y] => destruct (N.ltb_spec x y)
    | |- context [N.eqb ?x ?y] => destruct (N.eqb_spec x y)
    | H : context [N.ltb ?x ?y] |- _ => destruct (N.ltb_spec x y)
    | H : context [N.eqb ?x ?y] |- _ => destruct (N.eqb_spec x y)
    end.

Lemma eqb_eq (a b : str) : eqb a b = true <-> a = b.
Proof.
  revert b; induction a as [|x a IH]; intros [|y b]; simpl;
    try (split; (reflexivity || discriminate)).
  rewrite andb_true_iff, N.eqb_eq, IH.
  split; [intros [-> ->]; reflexivity | intros [= -> ->]; auto].
Qed.

Lemma eqb_refl (a : str) : eqb a a = true.
Proof. apply eqb_eq; reflexivity. Qed.

Lemma eqb_neq (a b : str) : eqb a b = false <-> a <> b.
Proof.
  rewrite <- eqb_eq. destruct (eqb a b); split; congruence.
Qed.

Lemma ltb_irrefl (a : str) : ltb a a = false.
Proof.
  induction a as [|x a IH]; simpl; [reflexivity|].
  cmpN; try lia; auto.
Qed.

Lemma ltb_trans (a b c : str) :
  ltb a b = true -> ltb b c = true -> ltb a c = true.
Proof.
  revert b c; induction a as [|x a IH]; intros [|y b] [|z c]; simpl;
    try discriminate; try reflexivity.
  intros Hab Hbc. cmpN; subst; try lia; try discriminate; eauto.
Qed.

Lemma ltb_trichotomy (a b : str) :
  ltb a b = true \/ a = b \/ ltb b a = true.
Proof.
  revert b; induction a as [|x a IH]; intros [|y b]; simpl; auto.
  destruct (IH b) as [H | [-> | H]];
    cmpN; subst; try lia; auto.
Qed.

Lemma ltb_asym (a b : str) : ltb a b = true -> ltb b a = false.
Proof.
  intros H. destruct (ltb b a) eqn:E; [|reflexivity].
  pose proof (ltb_trans _ _ _ H E) as C.
  rewrite ltb_irrefl in C; discriminate.
Qed.

Lemma leb_refl (a : str) : leb a a = true.
Proof. unfold leb; rewrite ltb_irrefl; reflexivity. Qed.

Lemma leb_total (a b : str) : leb a b = true \/ leb b a = true.
Proof.
  unfold leb. destruct (ltb b a) eqn:E; [right | left; reflexivity].
  rewrite (ltb_asym _ _ E); reflexivity.
Qed.

Lemma leb_trans (a b c : str) :
  leb a b = true -> leb b c = true -> leb a c = true.
Proof.
  unfold leb; rewrite !negb_true_iff; intros Hba Hcb.
  destruct (ltb c a) eqn:Hca; [|reflexivity].
  destruct (ltb_trichotomy a b) as [H | [-> | H]]; try congruence.
  rewrite (ltb_trans _ _ _ Hca H) in Hcb; discriminate.
Qed.

Lemma leb_antisym (a b : str) :
  leb a b = true -> leb b a = true -> a = b.
Proof.
  unfold leb; rewrite !negb_true_iff; intros Hba Hab.
  destruct (ltb_trichotomy a b) as [H | [-> | H]]; congruence.
Qed.

Lemma ltb_leb (a b : str) : ltb a b = true -> leb a b = true.
Proof. intros H; unfold leb; rewrite (ltb_asym _ _ H); reflexivity. Qed.

(** [strip] returns the empty string exactly on strings made of
    whitespace only. *)
Lemma lstrip_nil (s : str) : lstrip s = [] <-> forallb isspace s = true.
Proof.
  induction s as [|c s IH]; simpl; [tauto|].
  destruct (isspace c); simpl; [exact IH | split; discriminate].
Qed.

Lemma lstrip_all (s : str) : forallb isspace (lstrip s) = true -> forallb isspace s = true.
Proof.
  induction s as [|c s IH]; simpl; [tauto|].
  destruct (isspace c) eqn:E; simpl; [exact IH | rewrite E; discriminate].
Qed.

Lemma forallb_rev (f : N -> bool) (s : str) :
  forallb f (rev s) = forallb f s.
Proof.
  induction s as [|c s IH]; simpl; [reflexivity|].
  rewrite forallb_app, IH; simpl. rewrite andb_true_r, andb_comm; reflexivity.
Qed.

Lemma strip_nil (s : str) : strip s = [] <-> forallb isspace s = true.
Proof.
  unfold strip, rstrip. split.
  - intros H. apply (f_equal (@rev N)) in H. rewrite rev_involutive in H.
    simpl in H. apply lstrip_nil in H. rewrite forallb_rev in H.
    apply lstrip_all; exact H.
  - intros H. apply lstrip_nil in H. rewrite H; reflexivity.
Qed.

Lemma tabs_space (n : nat) : forallb isspace (tabs n) = true.
Proof. induction n; simpl; auto. Qed.

End PyStrFacts.

Import PyStrFacts.

(* ================================================================== *)
(** ** Induction on elements *)

Lemma Element_forall_ind (P : Element -> Prop) :
  (forall t a x y c, Forall P c -> P (mkElement t a x y c)) ->
  forall e, P e.
Proof.
  intros step. fix IH 1. intros [t a x y c]. apply step.
  induction c as [|e c IHc]; constructor; [apply IH | exact IHc].
Qed.

(* ================================================================== *)
(** ** The stable sort *)

Section ListSortFacts.

Variable A : Type.
Variable key : A -> str.

Lemma insert_perm (x : A) (l : list A) : Permutation (insert key x l) (x :: l).
Proof.
  induction l as [|y l IH]; simpl; [reflexivity|].
  destruct (ltb (key y) (key x)); [|reflexivity].
  rewrite IH. apply perm_swap.
Qed.

Lemma sort_perm (l : list A) : Permutation (list_sort key l) l.
Proof.
  induction l as [|x l IH]; simpl; [reflexivity|].
  rewrite insert_perm, IH; reflexivity.
Qed.

Lemma sort_in (l : list A) (x : A) : In x (list_sort key l) <-> In x l.
Proof.
  split; apply Permutation_in; [|symmetry]; apply sort_perm.
Qed.

Lemma sort_length (l : list A) : List.length (list_sort key l) = List.length l.
Proof. apply Permutation_length, sort_perm. Qed.

Lemma insert_sorted (x : A) (l : list A) :
  StronglySorted (key_le key) l -> StronglySorted (key_le key) (insert key x l).
Proof.
  induction 1 as [|y l Hs IH Hy]; simpl.
  - repeat constructor.
  - destruct (ltb (key y) (key x)) eqn:E.
    + constructor; [exact IH|].
      rewrite Forall_forall in *; intros z Hz.
      apply (Permutation_in _ (insert_perm x l)) in Hz.
      destruct Hz as [<- | Hz]; [apply ltb_leb; exact E | auto].
    + assert (Hxy : key_le key x y) by (unfold key_le, leb; rewrite E; reflexivity).
      constructor; [constructor; assumption|].
      constructor; [exact Hxy|].
      rewrite Forall_forall in *; intros z Hz.
      eapply leb_trans; [exact Hxy | apply Hy; exact Hz].
Qed.

Lemma sort_sorted (l : list A) : StronglySorted (key_le key) (list_sort key l).
Proof.
  induction l as [|x l IH]; simpl; [constructor | apply insert_sorted, IH].
Qed.

Lemma insert_head (x : A) (l : list A) :
  Forall (key_le key x) l -> insert key x l = x :: l.
Proof.
  destruct 1 as [|y l Hxy _]; simpl; [reflexivity|].
  unfold key_le, leb in Hxy. apply negb_true_iff in Hxy.
  rewrite Hxy; reflexivity.
Qed.

(** Sorting a sorted list changes nothing. *)
Lemma sort_sorted_id (l : list A) : StronglySorted (key_le key) l -> list_sort key l = l.
Proof.
  induction 1 as [|x l Hs IH Hx]; simpl; [reflexivity|].
  rewrite IH. apply insert_head, Hx.
Qed.

Lemma sort_idem (l : list A) : list_sort key (list_sort key l) = list_sort key l.
Proof. apply sort_sorted_id, sort_sorted. Qed.

Lemma insert_filter_key (k : str) (x : A) (l : list A) :
  filter (has_key key k) (insert key x l)
  = if has_key key k x then x :: filter (has_key key k) l else filter (has_key key k) l.
Proof.
  induction l as [|y l IH]; simpl; [reflexivity|].
  destruct (ltb (key y) (key x)) eqn:E; simpl; [|reflexivity].
  rewrite IH.
  destruct (has_key key k y) eqn:Hy, (has_key key k x) eqn:Hx; try reflexivity.
  unfold has_key in Hy, Hx. apply eqb_eq in Hy, Hx.
  rewrite Hy, Hx, ltb_irrefl in E; discriminate.
Qed.

(** Stability: the elements of any one key are in their original order. *)
Lemma sort_stable (k : str) (l : list A) :
  filter (has_key key k) (list_sort key l) = filter (has_key key k) l.
Proof.
  induction l as [|x l IH]; simpl; [reflexivity|].
  rewrite insert_filter_key, IH; reflexivity.
Qed.

(** Two sorted lists with the same elements of every key, in the same
    order, are equal: a stable sort has one possible result. *)
Lemma stable_sorted_unique (l1 l2 : list A) :
  StronglySorted (key_le key) l1 -> StronglySorted (key_le key) l2 ->
  (forall k, filter (has_key key k) l1 = filter (has_key key k) l2) ->
  l1 = l2.
Proof.
  intros H1; revert l2; induction H1 as [|a l1 Hs1 IH Ha];
    intros l2 H2 Hf.
  - destruct l2 as [|b l2]; [reflexivity|].
    specialize (Hf (key b)); simpl in Hf.
    unfold has_key in Hf; rewrite eqb_refl in Hf; discriminate.
  - destruct H2 as [|b l2 Hs2 Hb].
    + specialize (Hf (key a)); simpl in Hf.
      unfold has_key in Hf; rewrite eqb_refl in Hf; discriminate.
    + assert (Hin : forall (u : A) (l l' : list A),
                 (forall k, filter (has_key key k) l = filter (has_key key k) l') ->
                 In u l -> In u l').
      { intros u l l' E Hu.
        assert (In u (filter (has_key key (key u)) l)) as Hu'
            by (apply filter_In; split;
                [exact Hu | unfold has_key; apply eqb_refl]).
        rewrite E in Hu'. apply filter_In in Hu'; tauto. }
      assert (Hab : key a = key b).
      { apply leb_antisym.
        - assert (In b (a :: l1)) as [-> | Hi]
              by (apply (Hin b (b :: l2)); [intros k; symmetry; apply Hf | left; reflexivity]).
          + apply leb_refl.
          + rewrite Forall_forall in Ha; apply Ha, Hi.
        - assert (In a (b :: l2)) as [-> | Hi]
              by (apply (Hin a (a :: l1)); [exact Hf | left; reflexivity]).
          + apply leb_refl.
          + rewrite Forall_forall in Hb; apply Hb, Hi. }
      assert (a = b) as ->.
      { specialize (Hf (key a)); simpl in Hf. unfold has_key in Hf.
        rewrite <- Hab, eqb_refl in Hf. congruence. }
      f_equal. apply IH; [exact Hs2|].
      intros k. specialize (Hf k); simpl in Hf.
      destruct (has_key key k b); congruence.
Qed.

(** Any procedure that returns a sorted list keeping the elements of each
    key in order computes [list_sort]. *)
Lemma stable_sort_is_list_sort (l l' : list A) :
  StronglySorted (key_le key) l' ->
  (forall k, filter (has_key key k) l' = filter (has_key key k) l) ->
  l' = list_sort key l.
Proof.
  intros Hs Hf. apply stable_sorted_unique;
    [exact Hs | apply sort_sorted |].
  intros k; rewrite Hf, sort_stable; reflexivity.
Qed.

End ListSortFacts.

Lemma insert_map (A B : Type) (key : A -> str) (key' : B -> str) (g : A -> B)
      (x : A) (s : list A) :
  key' (g x) = key x ->
  (forall z, In z s -> key' (g z) = key z) ->
  insert key' (g x) (List.map g s) = List.map g (insert key x s).
Proof.
  intros Hx. induction s as [|y s IH]; intros Hs; simpl; [reflexivity|].
  rewrite Hx, (Hs y (or_introl eq_refl)).
  destruct (ltb (key y) (key x)); simpl; [|reflexivity].
  rewrite IH by (intros; apply Hs; right; assumption). reflexivity.
Qed.

Lemma sort_map (A B : Type) (key : A -> str) (key' : B -> str) (g : A -> B)
      (l : list A) :
  (forall x, In x l -> key' (g x) = key x) ->
  list_sort key' (List.map g l) = List.map g (list_sort key l).
Proof.
  induction l as [|x l IH]; intros Hk; simpl; [reflexivity|].
  rewrite IH by (intros; apply Hk; right; assumption).
  apply insert_map; [apply Hk; left; reflexivity|].
  intros z Hz; apply Hk; right; apply (sort_in key); exact Hz.
Qed.

(* ================================================================== *)
(** ** Eligibility *)

Lemma opt_truthy_false (o : option str) :
  opt_truthy o = false <-> absent_or_empty o.
Proof.
  unfold absent_or_empty. destruct o as [[|c s]|]; simpl; split; intros H;
    try reflexivity; try discriminate; auto;
    destruct H; discriminate.
Qed.

Lemma tag_in_sortable_tags (c : Element) :
  existsb (eqb (tag c)) sortable_tags = true <-> In (tag c) sortable_tags.
Proof.
  rewrite existsb_exists. split.
  - intros (k & Hk & E). apply eqb_eq in E. rewrite E; exact Hk.
  - intros H. exists (tag c); split; [exact H | apply eqb_refl].
Qed.

(** A child is sorted exactly when its tag is one of the four and it has a
    non-empty [name] or a non-empty [GUID]; it is an other child when its
    tag is not one of the four, or both attributes are absent or empty. *)
Lemma is_sortable_spec (c : Element) :
  is_sortable c = true <->
  In (tag c) sortable_tags
  /\ ~ (absent_or_empty (get c (lit "name"))
        /\ absent_or_empty (get c (lit "GUID"))).
Proof.
  unfold is_sortable.
  rewrite andb_true_iff, tag_in_sortable_tags, orb_true_iff.
  rewrite <- !opt_truthy_false.
  destruct (opt_truthy (get c (lit "name"))),
    (opt_truthy (get c (lit "GUID"))); intuition congruence.
Qed.

Lemma is_other_spec (c : Element) :
  is_other c = true <->
  ~ In (tag c) sortable_tags
  \/ (absent_or_empty (get c (lit "name"))
      /\ absent_or_empty (get c (lit "GUID"))).
Proof.
  unfold is_other, is_sortable.
  rewrite negb_true_iff, andb_false_iff, orb_false_iff.
  rewrite <- !opt_truthy_false, <- tag_in_sortable_tags.
  destruct (existsb (eqb (tag c)) sortable_tags); intuition congruence.
Qed.

(* ================================================================== *)
(** ** Partition and reordering of the children *)

Lemma fold_classify (l sortable other : list Element) :
  fold_left classify l (sortable, other)
  = (sortable ++ filter is_sortable l, other ++ filter is_other l).
Proof.
  revert sortable other; induction l as [|e l IH]; intros; simpl.
  - rewrite !app_nil_r; reflexivity.
  - unfold classify at 2, is_other; simpl.
    destruct (is_sortable e); simpl; rewrite IH, <- app_assoc; reflexivity.
Qed.

Lemma partition_children_eq (l : list Element) :
  partition_children l = (filter is_sortable l, filter is_other l).
Proof. unfold partition_children; rewrite fold_classify; reflexivity. Qed.

Lemma reorder_eq (l : list Element) :
  reorder l
  = filter is_other l ++ list_sort sort_key_for_element (filter is_sortable l).
Proof. unfold reorder; rewrite partition_children_eq; reflexivity. Qed.

Lemma filter_split_perm (A : Type) (p : A -> bool) (l : list A) :
  Permutation (filter (fun x => negb (p x)) l ++ filter p l) l.
Proof.
  induction l as [|x l IH]; simpl; [reflexivity|].
  destruct (p x); simpl.
  - rewrite <- Permutation_middle, IH; reflexivity.
  - rewrite IH; reflexivity.
Qed.

Lemma reorder_perm (l : list Element) : Permutation (reorder l) l.
Proof.
  rewrite reorder_eq, sort_perm. apply (filter_split_perm is_sortable).
Qed.

Lemma reorder_in (l : list Element) (x : Element) : In x (reorder l) <-> In x l.
Proof.
  split; apply Permutation_in; [|symmetry]; apply reorder_perm.
Qed.

Lemma filter_map_in (A : Type) (p : A -> bool) (g : A -> A) (l : list A) :
  (forall x, In x l -> p (g x) = p x) ->
  filter p (List.map g l) = List.map g (filter p l).
Proof.
  induction l as [|x l IH]; intros H; simpl; [reflexivity|].
  rewrite (H x (or_introl eq_refl)), IH by (intros; apply H; right; assumption).
  destruct (p x); reflexivity.
Qed.

(** Reordering commutes with any change of the children that leaves their
    eligibility and their key alone. *)
Lemma reorder_map (g : Element -> Element) (l : list Element) :
  (forall x, In x l -> is_sortable (g x) = is_sortable x) ->
  (forall x, In x l -> sort_key_for_element (g x) = sort_key_for_element x) ->
  reorder (List.map g l) = List.map g (reorder l).
Proof.
  intros Hs Hk. rewrite !reorder_eq, map_app.
  rewrite !filter_map_in; try assumption.
  - rewrite (sort_map sort_key_for_element); [reflexivity|].
    intros x Hx; apply Hk. apply filter_In in Hx; tauto.
  - intros x Hx; unfold is_other; rewrite Hs by assumption; reflexivity.
Qed.

Lemma filter_all (A : Type) (p : A -> bool) (l : list A) :
  Forall (fun x => p x = true) l -> filter p l = l.
Proof.
  induction 1 as [|x l Hx _ IH]; simpl; [reflexivity|].
  rewrite Hx, IH; reflexivity.
Qed.

Lemma filter_none (A : Type) (p : A -> bool) (l : list A) :
  Forall (fun x => p x = false) l -> filter p l = [].
Proof.
  induction 1 as [|x l Hx _ IH]; simpl; [reflexivity|].
  rewrite Hx, IH; reflexivity.
Qed.

Lemma sorted_part_sortable (l : list Element) :
  Forall (fun x => is_sortable x = true)
         (list_sort sort_key_for_element (filter is_sortable l)).
Proof.
  apply Forall_forall; intros x Hx.
  apply sort_in, filter_In in Hx; tauto.
Qed.

Lemma other_part_other (l : list Element) :
  Forall (fun x => is_sortable x = false) (filter is_other l).
Proof.
  apply Forall_forall; intros x Hx.
  apply filter_In in Hx. unfold is_other in Hx.
  destruct (is_sortable x); [destruct Hx; discriminate | reflexivity].
Qed.

Lemma Forall_other_flip (l : list Element) :
  Forall (fun x => is_sortable x = false) l <->
  Forall (fun x => is_other x = true) l.
Proof.
  unfold is_other; split; apply Forall_impl; intros x;
    destruct (is_sortable x); simpl; congruence.
Qed.

Lemma Forall_sortable_flip (l : list Element) :
  Forall (fun x => is_sortable x = true) l <->
  Forall (fun x => is_other x = false) l.
Proof.
  unfold is_other; split; apply Forall_impl; intros x;
    destruct (is_sortable x); simpl; congruence.
Qed.

Lemma filter_sortable_reorder (l : list Element) :
  filter is_sortable (reorder l)
  = list_sort sort_key_for_element (filter is_sortable l).
Proof.
  rewrite reorder_eq, filter_app.
  rewrite (filter_none _ (other_part_other l)).
  rewrite (filter_all _ (sorted_part_sortable l)). reflexivity.
Qed.

Lemma filter_other_reorder (l : list Element) :
  filter is_other (reorder l) = filter is_other l.
Proof.
  rewrite reorder_eq, filter_app.
  assert (filter is_other (filter is_other l) = filter is_other l) as ->
    by (apply filter_all, (proj1 (Forall_other_flip _)), other_part_other).
  assert (filter is_other
            (list_sort sort_key_for_element (filter is_sortable l)) = []) as ->
    by (apply filter_none, (proj1 (Forall_sortable_flip _)),
        sorted_part_sortable).
  apply app_nil_r.
Qed.

Lemma reorder_idem (l : list Element) : reorder (reorder l) = reorder l.
Proof.
  rewrite (reorder_eq (reorder l)).
  rewrite filter_other_reorder, filter_sortable_reorder, sort_idem.
  symmetry; apply reorder_eq.
Qed.

(* ================================================================== *)
(** ** The recursion of the normalizer *)

Lemma height_child (t : str) (a : list (str * str)) (x y : option str)
      (c : list Element) (z : Element) :
  In z c -> height z < height (mkElement t a x y c).
Proof.
  simpl. induction c as [|e c IH]; simpl; [tauto|].
  intros [-> | H]; [lia | specialize (IH H); lia].
Qed.

Lemma sort_children_fuel_enough (n m : nat) (e : Element) :
  height e <= n -> height e <= m ->
  sort_children_fuel n e = sort_children_fuel m e.
Proof.
  revert m e; induction n as [|n IH]; intros m [t a x y c] Hn Hm.
  - simpl in Hn; lia.
  - destruct m as [|m]; [simpl in Hm; lia|].
    simpl. f_equal. apply map_ext_in; intros z Hz.
    apply (proj1 (reorder_in _ _)) in Hz.
    pose proof (height_child t a x y c z Hz).
    apply IH; lia.
Qed.

(** The equation of the source: reorder the children, then recurse into
    every child in the new order. *)
Lemma sort_children_recursively_eq (t : str) (a : list (str * str))
      (x y : option str) (c : list Element) :
  sort_children_recursively (mkElement t a x y c)
  = mkElement t a x y (List.map sort_children_recursively (reorder c)).
Proof.
  unfold sort_children_recursively at 1.
  change (height (mkElement t a x y c))
    with (S (fold_right (fun x m => Nat.max (height x) m) 0 c)).
  simpl sort_children_fuel. f_equal.
  apply map_ext_in; intros z Hz. apply (proj1 (reorder_in _ _)) in Hz.
  pose proof (height_child t a x y c z Hz) as H. simpl in H.
  apply sort_children_fuel_enough; lia.
Qed.

Lemma label_sort_children (e : Element) :
  label (sort_children_recursively e) = label e.
Proof. destruct e; rewrite sort_children_recursively_eq; reflexivity. Qed.

Lemma children_sort_children (e : Element) :
  children (sort_children_recursively e)
  = List.map sort_children_recursively (reorder (children e)).
Proof. destruct e; rewrite sort_children_recursively_eq; reflexivity. Qed.

Lemma is_sortable_sort_children (e : Element) :
  is_sortable (sort_children_recursively e) = is_sortable e.
Proof. destruct e; rewrite sort_children_recursively_eq; reflexivity. Qed.

Lemma sort_key_sort_children (e : Element) :
  sort_key_for_element (sort_children_recursively e) = sort_key_for_element e.
Proof. destruct e; rewrite sort_children_recursively_eq; reflexivity. Qed.

Lemma is_other_sort_children (e : Element) :
  is_other (sort_children_recursively e) = is_other e.
Proof. unfold is_other; rewrite is_sortable_sort_children; reflexivity. Qed.

Lemma reorder_sort_children (l : list Element) :
  reorder (List.map sort_children_recursively l)
  = List.map sort_children_recursively (reorder l).
Proof.
  apply reorder_map; intros;
    [apply is_sortable_sort_children | apply sort_key_sort_children].
Qed.

(* ================================================================== *)
(** ** The scenarios of the specification, by evaluation *)

Section Scenarios.

Local Open Scope string_scope.

Example key_name_wins :
  sort_key_for_element
    (Samples.leaf "Category" [("name", "B"); ("GUID", "A")]) = lit "B".
Proof. reflexivity. Qed.

Example key_guid_only :
  sort_key_for_element (Samples.leaf "Category" [("GUID", "A")])
  = lit "A".
Proof. reflexivity. Qed.

Example key_neither :
  sort_key_for_element (Samples.leaf "Category" []) = [].
Proof. reflexivity. Qed.

Example scenario_other_first :
  List.map (fun e => (tag e, sort_key_for_element e))
           (children (sort_children_recursively Samples.root_zao))
  = [(lit "Other", []); (lit "Category", lit "A"); (lit "Category", lit "Z")].
Proof. reflexivity. Qed.

Example scenario_nested :
  List.map (fun e => (tag e, attrib e))
           (flat_map children
                     (children (sort_children_recursively Samples.nested)))
  = List.map (fun e => (tag e, attrib e))
      [Samples.leaf "Note" []; Samples.leaf "PropertyValue" [];
       Samples.leaf "PropertyValue" [("name", "A")];
       Samples.leaf "PropertyValue" [("name", "X"); ("id", "1")];
       Samples.leaf "PropertyValue" [("name", "X"); ("id", "2")]].
Proof. reflexivity. Qed.

End Scenarios.

(* ================================================================== *)
(** ** The sort key *)

(** C1, as stated, fails: a [Category] with an empty [name] and the [GUID]
    [A] has the empty string for key, the value of its [name] attribute,
    where the claim gives [A]. *)
Lemma sort_key_empty_name_counterexample :
  get Samples.empty_name (lit "name") = Some [] /\
  get Samples.empty_name (lit "GUID") = Some (lit "A") /\
  sort_key_for_element Samples.empty_name = [] /\
  spec_sort_key Samples.empty_name = lit "A" /\
  sort_key_for_element Samples.empty_name <> spec_sort_key Samples.empty_name.
Proof. repeat split; discriminate. Qed.

(** C1, amended: the sort key is the value of the [name] attribute if that
    attribute is present, empty or not; otherwise the value of the [GUID]
    attribute if present; otherwise the empty string.  It is the key of the
    claim except on an element whose [name] is present and empty, where it
    is the empty string. *)
Theorem sort_key_for_element_present (e : Element) :
  sort_key_for_element e
  = match get e (lit "name"), get e (lit "GUID") with
    | Some n, _ => n
    | None, Some g => g
    | None, None => []
    end
  /\ sort_key_for_element e
     = match get e (lit "name") with
       | Some [] => []
       | _ => spec_sort_key e
       end.
Proof.
  unfold sort_key_for_element, spec_sort_key, get_default.
  destruct (get e (lit "name")) as [[|c n]|];
    destruct (get e (lit "GUID")) as [[|d g]|]; split; reflexivity.
Qed.

(* ================================================================== *)
(** ** Idempotence *)

(** C2: normalizing a normalized tree changes nothing; the result of a
    second run is the same tree (tags, attributes, text, tail and order of
    the children at every element). *)
Theorem sort_children_recursively_idempotent (T : Element) :
  sort_children_recursively (sort_children_recursively T)
  = sort_children_recursively T.
Proof.
  induction T as [t a x y c IH] using Element_forall_ind.
  rewrite !sort_children_recursively_eq.
  rewrite reorder_sort_children, reorder_idem, map_map.
  f_equal. apply map_ext_in; intros z Hz.
  rewrite Forall_forall in IH. apply IH, reorder_in, Hz.
Qed.

(* ================================================================== *)
(** ** Normalization permutes the children *)

Lemma flat_map_map (A B C : Type) (g : A -> B) (f : B -> list C) (l : list A) :
  flat_map f (List.map g l) = flat_map (fun x => f (g x)) l.
Proof. induction l; simpl; congruence. Qed.

Lemma map_flat_map (A B C : Type) (f : A -> list B) (g : B -> C) (l : list A) :
  List.map g (flat_map f l) = flat_map (fun x => List.map g (f x)) l.
Proof.
  induction l as [|x l IH]; simpl; [reflexivity|].
  rewrite map_app, IH; reflexivity.
Qed.

Lemma flat_map_perm_pointwise (A B : Type) (f g : A -> list B) (l : list A) :
  Forall (fun z => Permutation (f z) (g z)) l ->
  Permutation (flat_map f l) (flat_map g l).
Proof.
  induction 1 as [|z l Hz _ IH]; simpl; [reflexivity|].
  apply Permutation_app; assumption.
Qed.

(** The elements of the normalized tree are the normalized elements of the
    tree. *)
Lemma iter_sort_children (T : Element) :
  Permutation (iter (sort_children_recursively T))
              (List.map sort_children_recursively (iter T)).
Proof.
  induction T as [t a x y c IH] using Element_forall_ind.
  rewrite sort_children_recursively_eq at 1.
  cbn [iter List.map]. rewrite <- sort_children_recursively_eq.
  apply perm_skip.
  rewrite flat_map_map, map_flat_map.
  rewrite (Permutation_flat_map _ (reorder_perm c)).
  apply flat_map_perm_pointwise, IH.
Qed.

Lemma in_iter_sort_children (T p : Element) :
  In p (iter T) ->
  In (sort_children_recursively p) (iter (sort_children_recursively T)).
Proof.
  intros H. apply (Permutation_in _ (Permutation_sym (iter_sort_children T))).
  apply in_map, H.
Qed.

Lemma in_iter_sort_children_inv (T q : Element) :
  In q (iter (sort_children_recursively T)) ->
  exists p, In p (iter T) /\ q = sort_children_recursively p.
Proof.
  intros H. apply (Permutation_in _ (iter_sort_children T)) in H.
  apply in_map_iff in H. destruct H as [p [<- Hp]]; eauto.
Qed.

Lemma same_nodes_sort_children (T : Element) :
  same_nodes T (sort_children_recursively T).
Proof.
  induction T as [t a x y c IH] using Element_forall_ind.
  rewrite sort_children_recursively_eq.
  apply same_nodes_intro with (l := reorder c).
  - symmetry; apply reorder_perm.
  - assert (H : Forall (fun z => same_nodes z (sort_children_recursively z))
                       (reorder c)).
    { rewrite Forall_forall in *; intros z Hz; apply IH, reorder_in, Hz. }
    induction H; simpl; constructor; assumption.
Qed.

Lemma labels_sort_children (T : Element) :
  Permutation (List.map label (iter (sort_children_recursively T)))
              (List.map label (iter T)).
Proof.
  rewrite (Permutation_map label (iter_sort_children T)), map_map.
  erewrite map_ext; [reflexivity|]. intros; apply label_sort_children.
Qed.

(** C9: normalization permutes children and does nothing else.  The
    normalized tree is the tree with the children of every element permuted
    ([same_nodes]); at every element of the tree the new child sequence is a
    permutation of the old one, each child normalized in turn; the elements
    of the normalized tree are the normalized elements of the tree, each
    once; and the elements carry the same tags, attributes, text and tail,
    in the same numbers. *)
Theorem sort_children_recursively_permutes (T : Element) :
  same_nodes T (sort_children_recursively T)
  /\ Forall (fun p =>
               exists l, Permutation (children p) l
                         /\ children (sort_children_recursively p)
                            = List.map sort_children_recursively l)
            (iter T)
  /\ Permutation (iter (sort_children_recursively T))
                 (List.map sort_children_recursively (iter T))
  /\ Permutation (List.map label (iter (sort_children_recursively T)))
                 (List.map label (iter T))
  /\ List.length (iter (sort_children_recursively T)) = List.length (iter T).
Proof.
  split; [apply same_nodes_sort_children|].
  split.
  { apply Forall_forall; intros p _. exists (reorder (children p)).
    split; [symmetry; apply reorder_perm | apply children_sort_children]. }
  split; [apply iter_sort_children|].
  split; [apply labels_sort_children|].
  rewrite (Permutation_length (iter_sort_children T)). apply length_map.
Qed.

(* ================================================================== *)
(** ** Other children first, sortable children in key order *)

Lemma sort_children_sorted_part (l : list Element) :
  StronglySorted (key_le sort_key_for_element)
    (List.map sort_children_recursively
              (list_sort sort_key_for_element l)).
Proof.
  rewrite <- (sort_map sort_key_for_element sort_key_for_element)
    by (intros; apply sort_key_sort_children).
  apply sort_sorted.
Qed.

Lemma Forall_map_sort_children (P : Element -> bool) (b : bool)
      (l : list Element) :
  (forall z, P (sort_children_recursively z) = P z) ->
  Forall (fun c => P c = b) l ->
  Forall (fun c => P c = b) (List.map sort_children_recursively l).
Proof.
  intros HP H. apply Forall_forall; intros q Hq.
  apply in_map_iff in Hq. destruct Hq as [z [<- Hz]].
  rewrite HP. rewrite Forall_forall in H; apply H, Hz.
Qed.

(** The shape of the children of a normalized element, in terms of the
    children it had. *)
Lemma children_partitioned (p : Element) :
  let others :=
    List.map sort_children_recursively (filter is_other (children p)) in
  let sortables :=
    List.map sort_children_recursively
             (list_sort sort_key_for_element (filter is_sortable (children p))) in
  children (sort_children_recursively p) = others ++ sortables
  /\ Forall (fun c => is_other c = true) others
  /\ Forall (fun c => is_sortable c = true) sortables
  /\ Permutation sortables
       (List.map sort_children_recursively (filter is_sortable (children p)))
  /\ StronglySorted (key_le sort_key_for_element) sortables.
Proof.
  cbv zeta. split; [|split; [|split; [|split]]].
  - rewrite children_sort_children, reorder_eq, map_app; reflexivity.
  - apply Forall_map_sort_children; [apply is_other_sort_children|].
    apply (proj1 (Forall_other_flip _)), other_part_other.
  - apply Forall_map_sort_children; [apply is_sortable_sort_children|].
    apply sorted_part_sortable.
  - apply Permutation_map, sort_perm.
  - apply sort_children_sorted_part.
Qed.

(** C3: after normalization, at every element of the tree, the children
    that are not sortable come first, in the order they had before, and the
    sortable children follow, in the order of their sort keys.  The first
    part speaks of every element [p] of the input and of what it has become;
    the second of every element of the output. *)
Theorem others_first_then_sorted (T : Element) :
  Forall (fun p =>
            In (sort_children_recursively p)
               (iter (sort_children_recursively T))
            /\ exists others sortables,
                children (sort_children_recursively p) = others ++ sortables
                /\ Forall (fun c => is_other c = true) others
                /\ Forall (fun c => is_sortable c = true) sortables
                /\ others = List.map sort_children_recursively
                                     (filter is_other (children p))
                /\ Permutation sortables
                     (List.map sort_children_recursively
                               (filter is_sortable (children p)))
                /\ StronglySorted (key_le sort_key_for_element) sortables)
         (iter T)
  /\ Forall (fun q =>
               exists others sortables,
                 children q = others ++ sortables
                 /\ Forall (fun c => is_other c = true) others
                 /\ Forall (fun c => is_sortable c = true) sortables
                 /\ StronglySorted (key_le sort_key_for_element) sortables)
            (iter (sort_children_recursively T)).
Proof.
  split; apply Forall_forall.
  - intros p Hp. split; [apply in_iter_sort_children, Hp|].
    destruct (children_partitioned p) as (E & Ho & Hs & Hp' & Hso).
    eexists; eexists; repeat split; eassumption.
  - intros q Hq. apply in_iter_sort_children_inv in Hq.
    destruct Hq as [p [_ ->]].
    destruct (children_partitioned p) as (E & Ho & Hs & _ & Hso).
    eexists; eexists; repeat split; eassumption.
Qed.

(* ================================================================== *)
(** ** Stability *)

Lemma filter_andb (A : Type) (p q : A -> bool) (l : list A) :
  filter (fun x => p x && q x) l = filter p (filter q l).
Proof.
  induction l as [|x l IH]; simpl; [reflexivity|].
  destruct (q x); simpl; [|rewrite andb_false_r; exact IH].
  rewrite andb_true_r. destruct (p x); rewrite IH; reflexivity.
Qed.

Lemma filter_idem_andb (A : Type) (p q : A -> bool) (l : list A) :
  filter (fun x => p x && q x) (filter p l) = filter (fun x => p x && q x) l.
Proof.
  induction l as [|x l IH]; simpl; [reflexivity|].
  destruct (p x) eqn:E; simpl; rewrite ?E; simpl; rewrite IH; reflexivity.
Qed.

(** The sortable children of one key, before and after reordering. *)
Lemma reorder_stable (k : str) (l : list Element) :
  filter (fun c => is_sortable c && has_key sort_key_for_element k c)
         (reorder l)
  = filter (fun c => is_sortable c && has_key sort_key_for_element k c) l.
Proof.
  rewrite reorder_eq, filter_app.
  rewrite (@filter_none _ _ (filter is_other l)).
  - simpl. rewrite filter_andb, sort_stable, <- filter_andb.
    apply filter_idem_andb.
  - eapply Forall_impl; [|apply other_part_other].
    intros c Hc; simpl in Hc; rewrite Hc; reflexivity.
Qed.

Lemma before_filter (A : Type) (q : A -> bool) (x y : A) (l : list A) :
  q x = true -> q y = true -> before x y l -> before x y (filter q l).
Proof.
  intros Hx Hy (l1 & l2 & l3 & ->).
  exists (filter q l1), (filter q l2), (filter q l3).
  rewrite filter_app; simpl; rewrite Hx, filter_app; simpl; rewrite Hy.
  reflexivity.
Qed.

Lemma before_map (A B : Type) (g : A -> B) (x y : A) (l : list A) :
  before x y l -> before (g x) (g y) (List.map g l).
Proof.
  intros (l1 & l2 & l3 & ->).
  exists (List.map g l1), (List.map g l2), (List.map g l3).
  rewrite map_app; simpl; rewrite map_app; reflexivity.
Qed.

Lemma before_cons (A : Type) (a x y : A) (l : list A) :
  before x y l -> before x y (a :: l).
Proof.
  intros (l1 & l2 & l3 & ->). exists (a :: l1), l2, l3; reflexivity.
Qed.

Lemma before_unfilter (A : Type) (q : A -> bool) (x y : A) (l : list A) :
  before x y (filter q l) -> before x y l.
Proof.
  induction l as [|a l IH]; simpl.
  - intros (l1 & l2 & l3 & E). destruct l1; discriminate.
  - destruct (q a); [|intros H; apply before_cons, IH, H].
    intros ([|b l1] & l2 & l3 & E); simpl in E; injection E as -> E.
    + assert (In y (filter q l)) as Hy
          by (rewrite E; apply in_or_app; right; left; reflexivity).
      apply filter_In in Hy. destruct Hy as [Hy _].
      apply in_split in Hy. destruct Hy as (m1 & m2 & ->).
      exists [], m1, m2; reflexivity.
    + apply before_cons, IH. exists l1, l2, l3; exact E.
Qed.

(** C4: the sort is stable.  At every element of the tree the sortable
    children of any one key are, after normalization, in the order they had
    before; in particular, of two sortable children with equal keys, the one
    that came first still comes first. *)
Theorem equal_keys_keep_order (T : Element) :
  Forall (fun p =>
            (forall k,
                filter (fun c => is_sortable c
                                 && has_key sort_key_for_element k c)
                       (children (sort_children_recursively p))
                = List.map sort_children_recursively
                    (filter (fun c => is_sortable c
                                      && has_key sort_key_for_element k c)
                            (children p)))
            /\ (forall x y,
                   is_sortable x = true -> is_sortable y = true ->
                   sort_key_for_element x = sort_key_for_element y ->
                   before x y (children p) ->
                   before (sort_children_recursively x)
                          (sort_children_recursively y)
                          (children (sort_children_recursively p))))
         (iter T).
Proof.
  apply Forall_forall; intros p _.
  assert (Hk : forall k,
             filter (fun c => is_sortable c
                              && has_key sort_key_for_element k c)
                    (children (sort_children_recursively p))
             = List.map sort_children_recursively
                 (filter (fun c => is_sortable c
                                   && has_key sort_key_for_element k c)
                         (children p))).
  { intros k. rewrite children_sort_children, filter_map_in.
    - rewrite reorder_stable; reflexivity.
    - intros z _. unfold has_key.
      rewrite is_sortable_sort_children, sort_key_sort_children; reflexivity. }
  split; [exact Hk|].
  intros x y Hx Hy Hxy Hb.
  eapply before_unfilter. rewrite (Hk (sort_key_for_element x)).
  apply before_map, before_filter; [| |exact Hb].
  - unfold has_key; rewrite Hx, eqb_refl; reflexivity.
  - unfold has_key; rewrite Hy, <- Hxy, eqb_refl; reflexivity.
Qed.

(* ================================================================== *)
(** ** The formatter *)

Lemma tabs_succ (level : nat) : tabs level ++ tabs 1 = tabs (S level).
Proof.
  unfold tabs. rewrite <- repeat_app, Nat.add_1_r; reflexivity.
Qed.

Lemma is_blank_nl_indent (level : nat) : is_blank (Some (nl_indent level)) = true.
Proof.
  unfold is_blank, nl_indent.
  assert (strip (newline :: tabs level) = []) as ->; [|reflexivity].
  apply strip_nil; simpl. apply tabs_space.
Qed.

Lemma content_of_nl_indent (s : option str) (level : nat) :
  is_blank s = true -> content_of (Some (nl_indent level)) = content_of s.
Proof.
  intros H; unfold content_of; rewrite H, is_blank_nl_indent; reflexivity.
Qed.

(** The fields with content are the ones [content_of] keeps. *)
Lemma content_of_eq (old new : option str) :
  content_of new = content_of old <->
  (if is_blank old then is_blank new = true else new = old).
Proof.
  unfold content_of.
  destruct (is_blank old) eqn:Eo, (is_blank new) eqn:En; split; intros H;
    try reflexivity; try assumption; try congruence.
  - rewrite H in En; simpl in En; discriminate.
  - rewrite <- H in Eo; simpl in Eo; discriminate.
Qed.

Lemma on_last_app (A : Type) (f : A -> A) (l : list A) (x : A) :
  on_last f (l ++ [x]) = l ++ [f x].
Proof.
  induction l as [|y l IH]; simpl; [reflexivity|].
  rewrite IH. destruct (l ++ [x]) eqn:E; [|reflexivity].
  destruct l; discriminate.
Qed.

Lemma map_on_last (A B : Type) (g : A -> B) (f : A -> A) (l : list A) :
  (forall x, g (f x) = g x) -> List.map g (on_last f l) = List.map g l.
Proof.
  intros H. induction l as [|x l IH]; simpl; [reflexivity|].
  destruct l as [|y l]; simpl in *; [rewrite H; reflexivity|].
  rewrite IH; reflexivity.
Qed.

Lemma erase_blank_close_tail (level : nat) (e : Element) :
  erase_blank (close_tail (nl_indent level) e) = erase_blank e.
Proof.
  unfold close_tail. destruct e as [t a x y c]; cbn [tail set_tail].
  destruct (is_blank y) eqn:E; [|reflexivity].
  cbn [erase_blank]. f_equal. apply content_of_nl_indent, E.
Qed.

(** Formatting rewrites blank fields only. *)
Lemma erase_blank_indent_xml (e : Element) :
  forall level, erase_blank (indent_xml e level) = erase_blank e.
Proof.
  induction e as [t a x y c IH] using Element_forall_ind; intros level.
  destruct c as [|c0 c].
  - cbn [indent_xml]. destruct (negb (level =? 0)%nat && is_blank y) eqn:E;
      [|reflexivity].
    apply andb_true_iff in E. destruct E as [_ E].
    change (newline :: tabs level) with (nl_indent level).
    cbn [erase_blank]. f_equal. apply content_of_nl_indent, E.
  - cbn [indent_xml]. rewrite tabs_succ.
    change (newline :: tabs (S level)) with (nl_indent (S level)).
    change (newline :: tabs level) with (nl_indent level).
    cbn [erase_blank]. f_equal.
    + destruct (is_blank x) eqn:E; [|reflexivity].
      apply content_of_nl_indent, E.
    + destruct (is_blank y) eqn:E; [|reflexivity].
      apply content_of_nl_indent, E.
    + rewrite map_on_last by (apply erase_blank_close_tail).
      rewrite map_map. apply map_ext_in; intros z Hz.
      rewrite Forall_forall in IH; apply IH, Hz.
Qed.

Lemma is_sortable_erase_blank (e : Element) :
  is_sortable (erase_blank e) = is_sortable e.
Proof. destruct e; reflexivity. Qed.

Lemma sort_key_erase_blank (e : Element) :
  sort_key_for_element (erase_blank e) = sort_key_for_element e.
Proof. destruct e; reflexivity. Qed.

(** Normalizing and forgetting the blank fields commute. *)
Lemma erase_blank_sort_children (T : Element) :
  erase_blank (sort_children_recursively T)
  = sort_children_recursively (erase_blank T).
Proof.
  induction T as [t a x y c IH] using Element_forall_ind.
  cbn [erase_blank]. rewrite !sort_children_recursively_eq.
  cbn [erase_blank]. f_equal.
  rewrite reorder_map
    by (intros; [apply is_sortable_erase_blank || apply sort_key_erase_blank]).
  rewrite !map_map. apply map_ext_in; intros z Hz.
  rewrite Forall_forall in IH; apply IH, reorder_in, Hz.
Qed.

Lemma map_eq_Forall2 (A B : Type) (g : A -> B) (l l' : list A) :
  List.map g l = List.map g l' -> Forall2 (fun u v => g u = g v) l l'.
Proof.
  revert l'; induction l as [|u l IH]; intros [|v l'] H; simpl in H;
    try discriminate; constructor.
  - congruence.
  - apply IH; congruence.
Qed.

Lemma erase_blank_same_content (e e' : Element) :
  erase_blank e = erase_blank e' -> same_content e e'.
Proof.
  destruct e as [t a x y c], e' as [t' a' x' y' c']; cbn [erase_blank].
  intros [= -> -> Hx Hy Hc]. unfold same_content; cbn.
  repeat split.
  - apply content_of_eq; symmetry; exact Hx.
  - apply content_of_eq; symmetry; exact Hy.
  - apply (f_equal (@List.length Element)) in Hc.
    rewrite !length_map in Hc; symmetry; exact Hc.
Qed.

(** Trees that agree once blank fields are forgotten have, element by
    element in document order, the same content. *)
Lemma erase_blank_iter (e : Element) :
  forall e', erase_blank e = erase_blank e' ->
             Forall2 same_content (iter e) (iter e').
Proof.
  induction e as [t a x y c IH] using Element_forall_ind; intros e' H.
  pose proof (erase_blank_same_content _ _ H) as Hsc.
  destruct e' as [t' a' x' y' c']; cbn [iter].
  constructor; [exact Hsc|].
  cbn [erase_blank] in H. injection H as _ _ _ _ Hc.
  apply map_eq_Forall2 in Hc. clear Hsc.
  induction Hc as [|u v l l' Huv _ IHl]; simpl; [constructor|].
  inversion IH as [|? ? Hu Hl]; subst.
  apply Forall2_app; [apply Hu, Huv | apply IHl, Hl].
Qed.

(** C5: processing does not change content.  Formatting the normalized tree
    leaves, element by element, the tag, the attributes and every [text]
    and [tail] that has a character other than whitespace as they were, and
    a blank field blank; up to the blank fields the whole run is the
    normalizer, which only permutes children: the elements of the result
    carry the tags, attributes and non-blank texts of the input. *)
Theorem processing_keeps_content
        (ET_namespaces : Element -> (str -> str) * list (str * str))
        (escape_cdata escape_attrib : str -> str) (T : Element) :
  let sorted := sort_children_recursively T in
  let formatted :=
    fst (format_xml_output ET_namespaces escape_cdata escape_attrib sorted) in
  Forall2 same_content (iter sorted) (iter formatted)
  /\ erase_blank formatted = sort_children_recursively (erase_blank T)
  /\ same_nodes (erase_blank T) (erase_blank formatted)
  /\ Permutation (List.map label (iter (erase_blank formatted)))
                 (List.map label (iter (erase_blank T))).
Proof.
  cbv zeta. unfold format_xml_output; cbn [fst].
  assert (E : erase_blank (indent_xml (sort_children_recursively T) 0)
              = sort_children_recursively (erase_blank T))
    by (rewrite erase_blank_indent_xml; apply erase_blank_sort_children).
  split; [|split; [exact E | rewrite E; split]].
  - apply erase_blank_iter. symmetry; apply erase_blank_indent_xml.
  - apply same_nodes_sort_children.
  - apply labels_sort_children.
Qed.

Lemma tail_indent_xml (e : Element) (level : nat) :
  tail (indent_xml e (S level))
  = if is_blank (tail e) then Some (nl_indent (S level)) else tail e.
Proof.
  destruct e as [t a x y [|c0 c]]; cbn [indent_xml tail].
  - cbn [Nat.eqb negb andb]. destruct (is_blank y); reflexivity.
  - reflexivity.
Qed.

Lemma is_blank_tail_indent_xml (child : Element) (level : nat) :
  is_blank (tail (indent_xml child (S level))) = is_blank (tail child).
Proof.
  rewrite tail_indent_xml. destruct (is_blank (tail child)) eqn:E;
    [apply is_blank_nl_indent | exact E].
Qed.

Lemma tail_close_tail (child : Element) (level : nat) :
  tail (close_tail (nl_indent level) (indent_xml child (S level)))
  = if is_blank (tail child) then Some (nl_indent level) else tail child.
Proof.
  unfold close_tail. rewrite is_blank_tail_indent_xml.
  destruct (is_blank (tail child)) eqn:E.
  - destruct (indent_xml child (S level)); reflexivity.
  - rewrite tail_indent_xml, E; reflexivity.
Qed.

(** C6: formatting an element that has children, at any level.  Its [text],
    if blank, becomes a newline and [level + 1] tabs.  Its children are
    formatted one level down; then the [tail] of the last one, blank after
    that exactly when it was blank before, becomes a newline and [level]
    tabs if blank and is left alone otherwise. *)
Theorem indent_xml_parent (t : str) (a : list (str * str)) (x y : option str)
        (c : list Element) (child : Element) (level : nat) :
  let elem := mkElement t a x y (c ++ [child]) in
  let formatted_child := indent_xml child (S level) in
  text (indent_xml elem level)
  = (if is_blank x then Some (nl_indent (S level)) else x)
  /\ children (indent_xml elem level)
     = List.map (fun ch => indent_xml ch (S level)) c
       ++ [close_tail (nl_indent level) formatted_child]
  /\ is_blank (tail formatted_child) = is_blank (tail child)
  /\ tail (close_tail (nl_indent level) formatted_child)
     = (if is_blank (tail child) then Some (nl_indent level) else tail child)
  /\ label (close_tail (nl_indent level) formatted_child)
     = (tag formatted_child, attrib formatted_child, text formatted_child,
        if is_blank (tail child) then Some (nl_indent level) else tail child).
Proof.
  cbv zeta.
  pose proof (is_blank_tail_indent_xml child level) as Hb.
  pose proof (tail_close_tail child level) as Ht.
  assert (Hc : c ++ [child] <> []) by (destruct c; discriminate).
  destruct (c ++ [child]) as [|c0 l] eqn:El; [congruence|].
  cbn [indent_xml text children]. rewrite tabs_succ, <- El.
  rewrite map_app; cbn [List.map]. rewrite on_last_app.
  repeat split; try assumption.
  unfold label. rewrite Ht. unfold close_tail.
  destruct (is_blank (tail (indent_xml child (S level))));
    destruct (indent_xml child (S level)); reflexivity.
Qed.

(** The same, read on the formatted tree: every element of it that has
    children is indented for its level. *)
Lemma indented_parent_set_tail (level : nat) (v : option str) (e : Element) :
  indented_parent (level, e) -> indented_parent (level, set_tail v e).
Proof. destruct e; exact (fun H => H). Qed.

Lemma with_levels_close_tail (P : nat * Element -> Prop) (level : nat)
      (indent : str) (e : Element) :
  (forall v, P (level, e) -> P (level, set_tail v e)) ->
  Forall P (with_levels level e) ->
  Forall P (with_levels level (close_tail indent e)).
Proof.
  intros HP H. unfold close_tail. destruct (is_blank (tail e)); [|exact H].
  destruct e as [t a x y c]; cbn [set_tail with_levels] in *.
  inversion H as [|? ? Hh Ht]; subst.
  constructor; [apply (HP (Some indent)), Hh | exact Ht].
Qed.

Lemma Forall_flat_map_on_last (A B : Type) (P : B -> Prop) (f : A -> list B)
      (g : A -> A) (l : list A) :
  (forall q, In q l -> Forall P (f q)) ->
  (forall q, In q l -> Forall P (f q) -> Forall P (f (g q))) ->
  Forall P (flat_map f (on_last g l)).
Proof.
  induction l as [|q l IH]; intros Hf Hg; [constructor|].
  destruct l as [|q' l].
  - simpl. rewrite app_nil_r. apply Hg; [left; reflexivity|].
    apply Hf; left; reflexivity.
  - change (on_last g (q :: q' :: l)) with (q :: on_last g (q' :: l)).
    cbn [flat_map]. apply Forall_app; split.
    + apply Hf; left; reflexivity.
    + apply IH; intros; [apply Hf | apply Hg]; try right; assumption.
Qed.

Lemma indent_xml_indented (e : Element) :
  forall level,
    Forall indented_parent (with_levels level (indent_xml e level)).
Proof.
  induction e as [t a x y c IH] using Element_forall_ind; intros level.
  destruct c as [|c0 c].
  - cbn [indent_xml].
    destruct (negb (level =? 0)%nat && is_blank y); cbn [with_levels flat_map];
      (constructor; [|constructor]);
      unfold indented_parent; cbn [children];
      intros H; exfalso; apply H; reflexivity.
  - destruct (@exists_last _ (c0 :: c)) as (c1 & child & E);
      [discriminate|].
    rewrite E in *. clear E c0 c.
    assert (Hne : c1 ++ [child] <> []) by (destruct c1; discriminate).
    destruct (c1 ++ [child]) as [|d l] eqn:El; [congruence|].
    cbn [indent_xml with_levels]. rewrite tabs_succ, <- El. clear Hne.
    change (newline :: tabs (S level)) with (nl_indent (S level)).
    change (newline :: tabs level) with (nl_indent level).
    constructor.
    + intros _. cbn [text children]. split.
      * destruct (is_blank x) eqn:Ex; [reflexivity | congruence].
      * rewrite map_app; cbn [List.map]. rewrite on_last_app.
        eexists; eexists; split; [reflexivity|].
        rewrite tail_close_tail.
        destruct (is_blank (tail child)) eqn:Ec; [reflexivity | congruence].
    + apply Forall_flat_map_on_last.
      * intros q Hq. apply in_map_iff in Hq. destruct Hq as [z [<- Hz]].
        rewrite El in Hz. rewrite Forall_forall in IH. apply IH, Hz.
      * intros q _ Hq. apply with_levels_close_tail; [|exact Hq].
        intros v; apply indented_parent_set_tail.
Qed.

(** C10: a root without children is left as it is by the formatter: at
    level 0 the childless branch writes nothing, so neither [text] nor
    [tail] changes, and the tree handed to the serializer is the tree
    given. *)
Theorem childless_root_untouched
        (ET_namespaces : Element -> (str -> str) * list (str * str))
        (escape_cdata escape_attrib : str -> str)
        (t : str) (a : list (str * str)) (x y : option str) :
  indent_xml (mkElement t a x y []) 0 = mkElement t a x y []
  /\ fst (format_xml_output ET_namespaces escape_cdata escape_attrib
                            (mkElement t a x y []))
     = mkElement t a x y []
  /\ snd (format_xml_output ET_namespaces escape_cdata escape_attrib
                            (mkElement t a x y []))
     = tostring_unicode ET_namespaces escape_cdata escape_attrib
                        (mkElement t a x y []).
Proof. repeat split. Qed.

(** [<a><b/><c><d/></c></a>] formatted: the fields written are those of the
    usual indentation. *)
Example indent_xml_sample :
  indent_xml
    (Samples.node "a" []
       [Samples.leaf "b" []; Samples.node "c" [] [Samples.leaf "d" []]]) 0
  = mkElement (lit "a") [] (Some (nl_indent 1)) (Some (nl_indent 0))
      [mkElement (lit "b") [] None (Some (nl_indent 1)) [];
       mkElement (lit "c") [] (Some (nl_indent 2)) (Some (nl_indent 0))
         [mkElement (lit "d") [] None (Some (nl_indent 1)) []]].
Proof. reflexivity. Qed.

Example indent_xml_keeps_text :
  indent_xml Samples.with_text 0
  = mkElement (lit "a") [] (Some (lit "hello")) (Some (nl_indent 0))
      [mkElement (lit "b") [] None (Some (lit "tail text")) []].
Proof. reflexivity. Qed.

(* ================================================================== *)
(** ** The serialized text *)

Lemma tag_indent_xml (e : Element) (level : nat) :
  tag (indent_xml e level) = tag e.
Proof.
  destruct e as [t a x y [|c0 c]]; cbn [indent_xml]; [|reflexivity].
  destruct (negb (level =? 0)%nat && is_blank y); reflexivity.
Qed.

(** The serialization of an element begins with its start tag. *)
Lemma serialize_xml_head (escape_cdata escape_attrib : str -> str)
      (qnames : str -> str) (ns : list (str * str)) (short : bool)
      (e : Element) :
  exists rest,
    serialize_xml escape_cdata escape_attrib qnames ns short e
    = lit "<" ++ qnames (tag e) ++ rest.
Proof.
  destruct e as [t a x y c]; cbn [serialize_xml tag].
  eexists. rewrite <- !app_assoc. reflexivity.
Qed.

Lemma startswith_second (a b c : N) (p s : str) :
  b <> c -> startswith (a :: b :: p) (a :: c :: s) = false.
Proof.
  intros H. cbn [startswith]. rewrite N.eqb_refl.
  destruct (N.eqb_spec b c); [contradiction | reflexivity].
Qed.

Lemma writes_no_declaration_unicode (declared : Encoding) :
  writes_declaration None Unicode declared = false.
Proof. reflexivity. Qed.

(** C7: the text [format_xml_output] returns has no XML declaration.  It
    begins with the start tag of the root, a [<] followed by the qualified
    name the serializer writes for the root's tag (the tag itself in a
    document without namespaces); that name being a name, the text does not
    start with [<?xml]. *)
Theorem output_has_no_declaration
        (ET_namespaces : Element -> (str -> str) * list (str * str))
        (escape_cdata escape_attrib : str -> str) (root : Element) :
  opens_element (fst (ET_namespaces (indent_xml root 0)) (tag root)) ->
  (exists rest,
      snd (format_xml_output ET_namespaces escape_cdata escape_attrib root)
      = lit "<" ++ fst (ET_namespaces (indent_xml root 0)) (tag root) ++ rest)
  /\ startswith (lit "<?xml")
       (snd (format_xml_output ET_namespaces escape_cdata escape_attrib root))
     = false.
Proof.
  intros Hq.
  unfold format_xml_output, tostring_unicode, ElementTree_write; cbn [snd].
  rewrite writes_no_declaration_unicode; cbn [app].
  destruct (ET_namespaces (indent_xml root 0)) as [qnames ns]; cbn [fst] in *.
  destruct (serialize_xml_head escape_cdata escape_attrib qnames ns true
                               (indent_xml root 0)) as [rest ->].
  rewrite tag_indent_xml.
  split; [exists rest; reflexivity|].
  destruct (qnames (tag root)) as [|ch q]; [destruct Hq|].
  apply (@startswith_second 60%N 63%N ch (lit "xml") (q ++ rest)).
  intros E; apply Hq; symmetry; exact E.
Qed.

Lemma output_has_no_declaration_witness :
  opens_element
    (fst (Samples.plain_namespaces (indent_xml Samples.root_zao 0))
         (tag Samples.root_zao))
  /\ startswith (lit "<?xml")
       (snd (format_xml_output Samples.plain_namespaces Samples.escape_none
                               Samples.escape_none Samples.root_zao))
     = false.
Proof.
  assert (H : opens_element
                (fst (Samples.plain_namespaces
                        (indent_xml Samples.root_zao 0))
                     (tag Samples.root_zao)))
    by (vm_compute; discriminate).
  split; [exact H|].
  exact (proj2 (output_has_no_declaration Samples.plain_namespaces
                  Samples.escape_none Samples.escape_none
                  Samples.root_zao H)).
Defined.

(** The text of the sample, normalized and formatted. *)
Example format_xml_output_sample :
  snd (format_xml_output Samples.plain_namespaces Samples.escape_none
         Samples.escape_none (sort_children_recursively Samples.root_zao))
  = lit "<Root>" ++ nl_indent 1
    ++ lit "<Other />" ++ nl_indent 1
    ++ lit "<Category name=" ++ [quot] ++ lit "A" ++ [quot] ++ lit " />"
    ++ nl_indent 1
    ++ lit "<Category name=" ++ [quot] ++ lit "Z" ++ [quot] ++ lit " />"
    ++ nl_indent 0 ++ lit "</Root>" ++ nl_indent 0.
Proof. reflexivity. Qed.

(* ================================================================== *)
(** ** The driver *)

Section DriverFacts.

Variable ET_parse : str -> exn + Element.
Variable write_file : option str -> str -> exn + unit.
Variable ET_namespaces : Element -> (str -> str) * list (str * str).
Variable escape_cdata escape_attrib : str -> str.

(** The run that succeeds: parse, write once, report on the output
    stream, return. *)
Lemma process_settings_file_success (input_file : str)
      (output_file : option str) (root : Element) :
  ET_parse input_file = inr root ->
  let xml_output :=
    snd (format_xml_output ET_namespaces escape_cdata escape_attrib
                           (sort_children_recursively root)) in
  write_file output_file xml_output = inr tt ->
  Run.run (process_settings_file ET_parse write_file ET_namespaces
             escape_cdata escape_attrib input_file output_file)
  = ([EvRegisterNamespace [] (lit "http://www.w3.org/XML/1998/namespace");
    EvParse input_file;
      EvWrite output_file xml_output;
      EvStdout (lit "Sorted settings written to: "
                ++ format_path output_file)],
     Return tt).
Proof.
  intros Hp xml_output Hw. subst xml_output.
  unfold Run.run, process_settings_file, Run.try_except, Run.bind,
    Run.perform, Run.emit.
  cbn [app]. rewrite Hp.
  unfold format_xml_output in *; cbn [snd] in Hw. rewrite Hw.
  reflexivity.
Qed.

End DriverFacts.

(** C8: when the parser rejects the input, the run registers the prefix,
    tries the parse once, prints one line made of
    [Error parsing XML file: ] and the parser's diagnostic on the error
    stream, and exits with status 1; nothing is written to a file or to the
    output stream, and the parse is not tried again. *)
Theorem parse_error_exits_1
        (ET_parse : str -> exn + Element)
        (write_file : option str -> str -> exn + unit)
        (ET_namespaces : Element -> (str -> str) * list (str * str))
        (escape_cdata escape_attrib : str -> str)
        (input_file : str) (output_file : option str) (msg : str) :
  ET_parse input_file = inl (ParseError msg) ->
  Run.run (process_settings_file ET_parse write_file ET_namespaces
             escape_cdata escape_attrib input_file output_file)
  = ([EvRegisterNamespace [] (lit "http://www.w3.org/XML/1998/namespace");
      EvParse input_file;
      EvStderr (lit "Error parsing XML file: " ++ msg)],
     SysExit 1).
Proof.
  intros H.
  unfold Run.run, process_settings_file, Run.try_except, Run.bind,
    Run.perform, Run.emit, Run.sys_exit.
  cbn [app]. rewrite H. reflexivity.
Qed.

Lemma parse_error_exits_1_witness :
  Samples.rejecting_parse (lit "in.vssettings")
  = inl (ParseError (lit "syntax error: line 1, column 0"))
  /\ Run.run (process_settings_file Samples.rejecting_parse
                Samples.accepting_write Samples.plain_namespaces
                Samples.escape_none Samples.escape_none
                (lit "in.vssettings") (Some (lit "out.xml")))
     = ([EvRegisterNamespace [] (lit "http://www.w3.org/XML/1998/namespace");
         EvParse (lit "in.vssettings");
         EvStderr (lit "Error parsing XML file: "
                   ++ lit "syntax error: line 1, column 0")],
        SysExit 1).
Proof.
  split; [reflexivity|].
  apply (parse_error_exits_1 Samples.rejecting_parse
           Samples.accepting_write Samples.plain_namespaces
           Samples.escape_none Samples.escape_none
           (lit "in.vssettings") (Some (lit "out.xml"))).
  reflexivity.
Defined.

(* ================================================================== *)
(** * Further properties *)

(** ** Normal forms of the normalizer *)

Lemma canonical_unfold (t : str) (a : list (str * str)) (x y : option str)
      (c : list Element) :
  canonical (mkElement t a x y c)
  <-> canonical_children c /\ Forall canonical c.
Proof.
  unfold canonical; cbn [iter]. rewrite Forall_cons_iff, Forall_flat_map.
  reflexivity.
Qed.

Lemma canonical_children_reorder (l : list Element) :
  canonical_children l -> reorder l = l.
Proof.
  intros (o & s & -> & Ho & Hs & Hso).
  rewrite reorder_eq, !filter_app.
  rewrite (filter_all is_other Ho).
  rewrite (filter_none is_other (proj1 (Forall_sortable_flip _) Hs)).
  rewrite (filter_all is_sortable Hs).
  rewrite (filter_none is_sortable (proj2 (Forall_other_flip _) Ho)).
  rewrite app_nil_r. cbn [app]. rewrite (sort_sorted_id Hso). reflexivity.
Qed.

Lemma reorder_canonical (l : list Element) : canonical_children (reorder l).
Proof.
  rewrite reorder_eq.
  exists (filter is_other l),
    (list_sort sort_key_for_element (filter is_sortable l)).
  repeat split.
  - apply (proj1 (Forall_other_flip _)), other_part_other.
  - apply sorted_part_sortable.
  - apply sort_sorted.
Qed.

Lemma canonical_fixed (T : Element) :
  canonical T -> sort_children_recursively T = T.
Proof.
  induction T as [t a x y c IH] using Element_forall_ind.
  rewrite canonical_unfold. intros [Hc Hch].
  rewrite sort_children_recursively_eq, (canonical_children_reorder Hc).
  f_equal. rewrite <- (map_id c) at 2. apply map_ext_in; intros z Hz.
  rewrite Forall_forall in IH, Hch. apply IH; [exact Hz | apply Hch, Hz].
Qed.

Lemma canonical_sort_children (T : Element) :
  canonical (sort_children_recursively T).
Proof.
  apply Forall_forall; intros q Hq.
  apply in_iter_sort_children_inv in Hq. destruct Hq as [p [_ ->]].
  destruct (children_partitioned p) as (E & Ho & Hs & _ & Hso).
  eexists; eexists; repeat split; eassumption.
Qed.

Lemma sort_children_twice (T : Element) :
  sort_children_recursively (sort_children_recursively T)
  = sort_children_recursively T.
Proof. apply canonical_fixed, canonical_sort_children. Qed.

(** X1: the trees the normalizer leaves as they are are exactly the trees in
    normal form, those where at every element the children that are not
    sortable come before the sortable ones and the sortable ones have their
    keys in order. *)
Theorem fixed_points_are_canonical (T : Element) :
  sort_children_recursively T = T <-> canonical T.
Proof.
  split.
  - intros <-. apply canonical_sort_children.
  - apply canonical_fixed.
Qed.

(** X2: a tree in which no element is sortable (none has one of the four
    tags together with a non-empty [name] or [GUID]) comes out of the
    normalizer unchanged. *)
Theorem nothing_sortable_unchanged (T : Element) :
  Forall (fun q => is_sortable q = false) (iter T) ->
  sort_children_recursively T = T.
Proof.
  intros H. apply canonical_fixed.
  induction T as [t a x y c IH] using Element_forall_ind.
  cbn [iter] in H. apply Forall_cons_iff in H. destruct H as [_ H].
  rewrite Forall_flat_map in H.
  apply canonical_unfold. split.
  - exists c, []. rewrite app_nil_r. repeat split; try constructor.
    apply (proj1 (Forall_other_flip _)).
    rewrite Forall_forall in *; intros z Hz.
    specialize (H z Hz). destruct z; cbn [iter] in H.
    apply Forall_cons_iff in H; tauto.
  - rewrite Forall_forall in *; intros z Hz. apply IH; auto.
Qed.

Lemma nothing_sortable_unchanged_witness :
  Forall (fun q => is_sortable q = false) (iter SampleEnv.plain_doc)
  /\ sort_children_recursively SampleEnv.plain_doc = SampleEnv.plain_doc.
Proof.
  assert (H : Forall (fun q => is_sortable q = false)
                     (iter SampleEnv.plain_doc))
    by (repeat constructor).
  split; [exact H | exact (nothing_sortable_unchanged _ H)].
Defined.

Lemma filter_key_of_sortable (k : str) (l : list Element) :
  filter (has_key sort_key_for_element k) (filter is_sortable l)
  = filter (fun c => is_sortable c && has_key sort_key_for_element k c) l.
Proof.
  rewrite <- filter_andb. apply filter_ext; intros c; apply andb_comm.
Qed.

(** X3: the new order of a list of children depends only on the sequence of
    its other children and, for each key, on the sequence of its sortable
    children of that key.  Two lists are put in the same order exactly when
    they agree on those; where sortable children of different keys stand
    among each other and among the other children makes no difference. *)
Theorem reorder_same_iff (l1 l2 : list Element) :
  reorder l1 = reorder l2
  <-> filter is_other l1 = filter is_other l2
      /\ forall k,
          filter (fun c => is_sortable c && has_key sort_key_for_element k c) l1
          = filter (fun c => is_sortable c
                             && has_key sort_key_for_element k c) l2.
Proof.
  split.
  - intros E. split.
    + rewrite <- (filter_other_reorder l1), <- (filter_other_reorder l2), E.
      reflexivity.
    + intros k. rewrite <- (reorder_stable k l1), <- (reorder_stable k l2), E.
      reflexivity.
  - intros [Ho Hk]. rewrite !reorder_eq, Ho. f_equal.
    apply (@stable_sorted_unique Element sort_key_for_element);
      try apply sort_sorted.
    intros k. rewrite !sort_stable, !filter_key_of_sortable. apply Hk.
Qed.

(** X4: normalizing the children beforehand changes nothing: the normalizer
    gives the same tree whether or not some of the subtrees were normalized
    already. *)
Theorem normalized_children_same (t : str) (a : list (str * str))
        (x y : option str) (c : list Element) :
  sort_children_recursively
    (mkElement t a x y (List.map sort_children_recursively c))
  = sort_children_recursively (mkElement t a x y c).
Proof.
  rewrite !sort_children_recursively_eq, reorder_sort_children, map_map.
  f_equal. apply map_ext; intros z. apply sort_children_twice.
Qed.

(** X5: a sortable child has the empty key exactly when its [name] attribute
    is present and empty (it is then sortable by its [GUID], which the key
    ignores). *)
Theorem sortable_empty_key (e : Element) :
  is_sortable e = true ->
  (sort_key_for_element e = [] <-> get e (lit "name") = Some []).
Proof.
  unfold is_sortable, sort_key_for_element, get_default.
  intros H. apply andb_true_iff in H. destruct H as [_ H].
  destruct (get e (lit "name")) as [[|ch n]|];
    destruct (get e (lit "GUID")) as [[|d g]|]; cbn in *;
    split; intros E; try reflexivity; try discriminate.
Qed.

Lemma sortable_empty_key_witness :
  is_sortable Samples.empty_name = true
  /\ (sort_key_for_element Samples.empty_name = []
      <-> get Samples.empty_name (lit "name") = Some []).
Proof.
  split; [reflexivity | apply sortable_empty_key; reflexivity].
Defined.

(* ================================================================== *)
(** ** More on the formatter *)

Lemma indent_xml_leaf (t : str) (a : list (str * str)) (x y : option str)
      (level : nat) :
  indent_xml (mkElement t a x y []) level
  = if negb (level =? 0)%nat && is_blank y
    then mkElement t a x (Some (nl_indent level)) []
    else mkElement t a x y [].
Proof. reflexivity. Qed.

Lemma indent_xml_node (t : str) (a : list (str * str)) (x y : option str)
      (c : list Element) (level : nat) :
  c <> [] ->
  indent_xml (mkElement t a x y c) level
  = mkElement t a
      (if is_blank x then Some (nl_indent (S level)) else x)
      (if is_blank y then Some (nl_indent level) else y)
      (on_last (close_tail (nl_indent level))
               (List.map (fun ch => indent_xml ch (S level)) c)).
Proof.
  destruct c as [|c0 c]; [congruence|]. intros _.
  cbn [indent_xml]. rewrite tabs_succ. reflexivity.
Qed.

Lemma on_last_nonempty (A : Type) (f : A -> A) (l : list A) :
  l <> [] -> on_last f l <> [].
Proof. destruct l as [|x [|y l]]; simpl; congruence. Qed.

Lemma map_nonempty (A B : Type) (f : A -> B) (l : list A) :
  l <> [] -> List.map f l <> [].
Proof. destruct l; simpl; congruence. Qed.

(** A blank field given its indentation is not given another one. *)
Lemma refill_twice (v : option str) (level : nat) :
  (if is_blank (if is_blank v then Some (nl_indent level) else v)
   then Some (nl_indent level)
   else (if is_blank v then Some (nl_indent level) else v))
  = (if is_blank v then Some (nl_indent level) else v).
Proof.
  destruct (is_blank v) eqn:E.
  - rewrite is_blank_nl_indent; reflexivity.
  - rewrite E; reflexivity.
Qed.

(** Below the root the formatter does not look at what a blank [tail]
    holds. *)
Lemma indent_xml_blank_tail (t : str) (a : list (str * str))
      (x y y' : option str) (c : list Element) (level : nat) :
  is_blank y = true -> is_blank y' = true ->
  indent_xml (mkElement t a x y c) (S level)
  = indent_xml (mkElement t a x y' c) (S level).
Proof.
  intros H H'. destruct c as [|c0 c].
  - rewrite !indent_xml_leaf. cbn [Nat.eqb negb andb]. rewrite H, H'.
    reflexivity.
  - rewrite !indent_xml_node by discriminate. rewrite H, H'. reflexivity.
Qed.

Lemma indent_xml_close_tail (q : Element) (n level : nat) :
  indent_xml (close_tail (nl_indent n) q) (S level) = indent_xml q (S level).
Proof.
  unfold close_tail. destruct (is_blank (tail q)) eqn:E; [|reflexivity].
  destruct q as [t a x y c]; cbn [set_tail tail] in *.
  apply indent_xml_blank_tail; [apply is_blank_nl_indent | exact E].
Qed.

Lemma indent_xml_twice (e : Element) :
  forall level,
    indent_xml (indent_xml e level) level = indent_xml e level.
Proof.
  induction e as [t a x y c IH] using Element_forall_ind; intros level.
  destruct c as [|c0 c].
  - rewrite indent_xml_leaf.
    destruct (negb (level =? 0)%nat && is_blank y) eqn:E;
      rewrite indent_xml_leaf; [|rewrite E; reflexivity].
    apply andb_true_iff in E. destruct E as [-> _].
    rewrite is_blank_nl_indent. reflexivity.
  - assert (Hc : c0 :: c <> []) by discriminate.
    rewrite (indent_xml_node t a x y level Hc).
    rewrite indent_xml_node
      by (apply on_last_nonempty, map_nonempty, Hc).
    rewrite !refill_twice. f_equal.
    rewrite map_on_last by (intros; apply indent_xml_close_tail).
    rewrite map_map. f_equal. apply map_ext_in; intros z Hz.
    rewrite Forall_forall in IH. apply IH, Hz.
Qed.

(** X6: formatting is idempotent: formatting, at the same level, a tree that
    was formatted changes no field; so the tree [format_xml_output] leaves
    is left as it is by [format_xml_output]. *)
Theorem indent_xml_idempotent
        (ET_namespaces : Element -> (str -> str) * list (str * str))
        (escape_cdata escape_attrib : str -> str)
        (e : Element) (level : nat) :
  indent_xml (indent_xml e level) level = indent_xml e level
  /\ (let formatted :=
        fst (format_xml_output ET_namespaces escape_cdata escape_attrib e) in
      fst (format_xml_output ET_namespaces escape_cdata escape_attrib
                             formatted) = formatted).
Proof.
  split; [apply indent_xml_twice|].
  unfold format_xml_output; cbn [fst]. apply indent_xml_twice.
Qed.

Lemma Forall2_transport (A : Type) (R : A -> A -> Prop) (P : A -> Prop)
      (l l' : list A) :
  (forall u v, R u v -> P u -> P v) ->
  Forall2 R l l' -> Forall P l -> Forall P l'.
Proof.
  intros HR H. induction H as [|u v l l' Huv _ IH]; intros HP;
    [constructor|].
  inversion HP; subst. constructor; [eapply HR; eassumption | auto].
Qed.

Lemma sorted_transport (l l' : list Element) :
  Forall2 (fun u v => sort_key_for_element u = sort_key_for_element v) l l' ->
  StronglySorted (key_le sort_key_for_element) l ->
  StronglySorted (key_le sort_key_for_element) l'.
Proof.
  induction 1 as [|u v l l' Huv Hl IH]; intros Hs; [constructor|].
  inversion Hs as [|? ? Hs' Hu]; subst. constructor; [apply IH, Hs'|].
  clear IH Hs Hs'. induction Hl as [|p q l l' Hpq _ IHl]; [constructor|].
  inversion Hu; subst. constructor; [|apply IHl; assumption].
  unfold key_le in *. rewrite <- Huv, <- Hpq. assumption.
Qed.

Lemma same_erased_sortable (u v : Element) :
  erase_blank u = erase_blank v ->
  is_sortable u = is_sortable v
  /\ sort_key_for_element u = sort_key_for_element v.
Proof.
  intros E.
  rewrite <- (is_sortable_erase_blank u), <- (sort_key_erase_blank u), E.
  rewrite is_sortable_erase_blank, sort_key_erase_blank. auto.
Qed.

Lemma canonical_children_erased (l l' : list Element) :
  List.map erase_blank l = List.map erase_blank l' ->
  canonical_children l -> canonical_children l'.
Proof.
  intros E (o & s & -> & Ho & Hs & Hso).
  apply map_eq_Forall2 in E. apply Forall2_app_inv_l in E.
  destruct E as (o' & s' & Fo & Fs & ->).
  exists o', s'. repeat split.
  - eapply Forall2_transport; [|exact Fo | exact Ho].
    cbv beta; intros u v Huv. unfold is_other.
    destruct (same_erased_sortable _ _ Huv) as [-> _]. auto.
  - eapply Forall2_transport; [|exact Fs | exact Hs].
    cbv beta; intros u v Huv.
    destruct (same_erased_sortable _ _ Huv) as [-> _]. auto.
  - eapply sorted_transport; [|exact Hso].
    eapply Forall2_impl; [|exact Fs].
    intros u v Huv; apply (same_erased_sortable _ _ Huv).
Qed.

(** Normal form does not depend on the blank fields. *)
Lemma canonical_erased (e : Element) :
  forall e', erase_blank e = erase_blank e' -> canonical e -> canonical e'.
Proof.
  induction e as [t a x y c IH] using Element_forall_ind.
  intros [t' a' x' y' c'] E. cbn [erase_blank] in E.
  injection E as _ _ _ _ Ec.
  rewrite !canonical_unfold. intros [Hc Hch]. split.
  - eapply canonical_children_erased; eassumption.
  - apply map_eq_Forall2 in Ec. clear Hc.
    induction Ec as [|u v l l' Huv _ IHl]; [constructor|].
    inversion IH; subst. inversion Hch; subst.
    constructor; [eauto | apply IHl; assumption].
Qed.

Lemma canonical_indent_xml (e : Element) (level : nat) :
  canonical e -> canonical (indent_xml e level).
Proof.
  apply canonical_erased. symmetry; apply erase_blank_indent_xml.
Qed.

(** X7: formatting does not undo the normalization: the formatted tree of a
    run is in normal form, so normalizing it again changes nothing. *)
Theorem processed_is_normalized (T : Element) :
  canonical (processed T)
  /\ sort_children_recursively (processed T) = processed T.
Proof.
  assert (H : canonical (processed T))
    by (apply canonical_indent_xml, canonical_sort_children).
  split; [exact H | apply canonical_fixed, H].
Qed.

(** X8: a run is idempotent on the tree: normalizing and formatting the
    tree a run has produced gives that tree again. *)
Theorem processed_idempotent (T : Element) :
  processed (processed T) = processed T.
Proof.
  assert (H : sort_children_recursively (processed T) = processed T)
    by (unfold processed;
        apply canonical_fixed, canonical_indent_xml, canonical_sort_children).
  unfold processed at 1. rewrite H. apply indent_xml_twice.
Qed.

Lemma opt_truthy_refill (v : option str) (level : nat) :
  opt_truthy (if is_blank v then Some (nl_indent level) else v) = true.
Proof.
  destruct (is_blank v) eqn:E; [reflexivity|].
  destruct v as [[|ch s]|]; try discriminate. reflexivity.
Qed.

Lemma with_levels_close_tail_some (P : nat * Element -> Prop) (level : nat)
      (indent : str) (e : Element) :
  (P (level, e) -> P (level, set_tail (Some indent) e)) ->
  Forall P (with_levels level e) ->
  Forall P (with_levels level (close_tail indent e)).
Proof.
  intros HP H. unfold close_tail. destruct (is_blank (tail e)); [|exact H].
  destruct e as [t a x y c]; cbn [set_tail with_levels] in *.
  inversion H as [|? ? Hh Ht]; subst.
  constructor; [apply HP, Hh | exact Ht].
Qed.

Lemma set_apart_set_tail (level n : nat) (e : Element) :
  set_apart (level, e) -> set_apart (level, set_tail (Some (nl_indent n)) e).
Proof.
  destruct e as [t a x y c]; unfold set_apart; cbn [set_tail tail text children].
  intros [_ H]. split; [reflexivity|].
  intros Hc. split; [apply H, Hc | reflexivity].
Qed.

(** X9: in a formatted tree every element below the root has a non-empty
    [tail], and every element with children, the root too, has a non-empty
    [text] and a non-empty [tail]: the serializer writes something after
    every tag but the end tag of a childless root. *)
Theorem indent_xml_set_apart (e : Element) :
  forall level, Forall set_apart (with_levels level (indent_xml e level)).
Proof.
  induction e as [t a x y c IH] using Element_forall_ind; intros level.
  destruct c as [|c0 c].
  - rewrite indent_xml_leaf.
    destruct (negb (level =? 0)%nat && is_blank y) eqn:E;
      cbn [with_levels flat_map]; (constructor; [|constructor]);
      unfold set_apart; cbn [tail text children]; (split; [|congruence]).
    + reflexivity.
    + intros Hl. apply Nat.eqb_neq in Hl. rewrite Hl in E. cbn in E.
      destruct y as [[|ch s]|]; try discriminate. reflexivity.
  - assert (Hc : c0 :: c <> []) by discriminate.
    rewrite (indent_xml_node t a x y level Hc). cbn [with_levels].
    constructor.
    + unfold set_apart; cbn [tail text children].
      split; [intros _; apply opt_truthy_refill|].
      intros _; split; apply opt_truthy_refill.
    + apply Forall_flat_map_on_last.
      * intros q Hq. apply in_map_iff in Hq. destruct Hq as [z [<- Hz]].
        rewrite Forall_forall in IH. apply IH, Hz.
      * intros q _ Hq. apply with_levels_close_tail_some; [|exact Hq].
        apply set_apart_set_tail.
Qed.

(** X10: the [tail] of every child after formatting its parent at [level]:
    a child that is not the last gets a newline and [level + 1] tabs if its
    [tail] was blank, the last child a newline and [level] tabs, and a
    [tail] with content is kept. *)
Theorem indent_xml_children_tails (t : str) (a : list (str * str))
        (x y : option str) (c : list Element) (child : Element)
        (level : nat) :
  List.map tail
           (children (indent_xml (mkElement t a x y (c ++ [child])) level))
  = List.map (fun z => if is_blank (tail z)
                       then Some (nl_indent (S level)) else tail z) c
    ++ [if is_blank (tail child) then Some (nl_indent level) else tail child].
Proof.
  rewrite indent_xml_node by (destruct c; discriminate).
  cbn [children]. rewrite map_app; cbn [List.map]. rewrite on_last_app.
  rewrite map_app, map_map; cbn [List.map]. rewrite tail_close_tail.
  f_equal. apply map_ext; intros z. apply tail_indent_xml.
Qed.

(* ================================================================== *)
(** ** More on the driver *)

Section DriverCases.

Variable ET_parse : str -> exn + Element.
Variable write_file : option str -> str -> exn + unit.
Variable ET_namespaces : Element -> (str -> str) * list (str * str).
Variable escape_cdata escape_attrib : str -> str.

(** The three ways a run of [process_settings_file] goes. *)
Lemma process_settings_file_run (input_file : str) (output_file : option str) :
  Run.run (process_settings_file ET_parse write_file ET_namespaces
             escape_cdata escape_attrib input_file output_file)
  = let start :=
      [EvRegisterNamespace [] (lit "http://www.w3.org/XML/1998/namespace");
       EvParse input_file] in
    match ET_parse input_file with
    | inl e => (start ++ [EvStderr (report input_file e)], SysExit 1)
    | inr root =>
        let xml_output :=
          snd (format_xml_output ET_namespaces escape_cdata escape_attrib
                                 (sort_children_recursively root)) in
        match write_file output_file xml_output with
        | inr _ =>
            (start ++ [EvWrite output_file xml_output;
                       EvStdout (lit "Sorted settings written to: "
                                 ++ format_path output_file)],
             Return tt)
        | inl e =>
            (start ++ [EvWrite output_file xml_output;
                       EvStderr (report input_file e)],
             SysExit 1)
        end
    end.
Proof.
  unfold Run.run, process_settings_file, Run.try_except, Run.bind,
    Run.perform, Run.emit, Run.sys_exit, format_xml_output.
  cbv zeta. cbn [app snd].
  destruct (ET_parse input_file) as [[msg|msg|msg]|root]; try reflexivity.
  destruct (write_file output_file _) as [[msg|msg|msg]|[]]; reflexivity.
Qed.

End DriverCases.

(** X11: whatever the parser and the file system do, a run of
    [process_settings_file] parses the input once and ends in one of two
    ways: it returns after one write to the output path and one line on the
    output stream, with nothing on the error stream; or it exits with
    status 1 after exactly one line on the error stream, with nothing on
    the output stream and at most one attempted write.  No exception of the
    environment escapes, and a write is attempted only after a successful
    parse. *)
Theorem process_settings_file_outcome
        (ET_parse : str -> exn + Element)
        (write_file : option str -> str -> exn + unit)
        (ET_namespaces : Element -> (str -> str) * list (str * str))
        (escape_cdata escape_attrib : str -> str)
        (input_file : str) (output_file : option str) :
  let (tr, r) :=
    Run.run (process_settings_file ET_parse write_file ET_namespaces
               escape_cdata escape_attrib input_file output_file) in
  parsed_paths tr = [input_file]
  /\ (written_paths tr = []
      \/ written_paths tr = [output_file]
         /\ exists root, ET_parse input_file = inr root)
  /\ ((r = Return tt /\ written_paths tr = [output_file]
       /\ stderr_lines tr = [] /\ exists line, stdout_lines tr = [line])
      \/ (r = SysExit 1 /\ stdout_lines tr = []
          /\ exists e, stderr_lines tr = [report input_file e])).
Proof.
  rewrite process_settings_file_run. cbv zeta.
  destruct (ET_parse input_file) as [e|root].
  - cbn [parsed_paths written_paths stdout_lines stderr_lines flat_map app].
    split; [reflexivity|]. split; [left; reflexivity|].
    right. repeat split. exists e; reflexivity.
  - destruct (write_file output_file _) as [e|u];
      cbn [parsed_paths written_paths stdout_lines stderr_lines flat_map app];
      (split; [reflexivity|]);
      (split; [right; split; [reflexivity | exists root; reflexivity]|]).
    + right. repeat split. exists e; reflexivity.
    + left. repeat split. eexists; reflexivity.
Qed.



(** X13: a [FileNotFoundError] raised while writing, as for an output
    directory that is not there, is reported as the input file not being
    found: the handler of line 120 names [input_file] whatever raised the
    exception.  The run exits with status 1 after the attempted write. *)
Theorem write_not_found_blames_input
        (ET_parse : str -> exn + Element)
        (write_file : option str -> str -> exn + unit)
        (ET_namespaces : Element -> (str -> str) * list (str * str))
        (escape_cdata escape_attrib : str -> str)
        (input_file : str) (output_file : option str) (root : Element)
        (msg : str) :
  ET_parse input_file = inr root ->
  write_file output_file
    (snd (format_xml_output ET_namespaces escape_cdata escape_attrib
                            (sort_children_recursively root)))
  = inl (FileNotFoundError msg) ->
  Run.run (process_settings_file ET_parse write_file ET_namespaces
             escape_cdata escape_attrib input_file output_file)
  = ([EvRegisterNamespace [] (lit "http://www.w3.org/XML/1998/namespace");
      EvParse input_file;
      EvWrite output_file
        (tostring_unicode ET_namespaces escape_cdata escape_attrib
                          (processed root));
      EvStderr (lit "Error: Input file '" ++ input_file
                ++ lit "' not found")],
     SysExit 1).
Proof.
  intros Hp Hw. rewrite process_settings_file_run, Hp. cbv zeta.
  rewrite Hw. reflexivity.
Qed.

Lemma write_not_found_blames_input_witness :
  SampleEnv.accepting_parse (lit "in.vssettings") = inr Samples.root_zao
  /\ Run.run (process_settings_file SampleEnv.accepting_parse
                SampleEnv.missing_dir_write Samples.plain_namespaces
                Samples.escape_none Samples.escape_none
                (lit "in.vssettings") (Some (lit "gone/out.xml")))
     = ([EvRegisterNamespace [] (lit "http://www.w3.org/XML/1998/namespace");
         EvParse (lit "in.vssettings");
         EvWrite (Some (lit "gone/out.xml"))
           (tostring_unicode Samples.plain_namespaces Samples.escape_none
                             Samples.escape_none
                             (processed Samples.root_zao));
         EvStderr (lit "Error: Input file '" ++ lit "in.vssettings"
                   ++ lit "' not found")],
        SysExit 1).
Proof.
  split; [reflexivity|].
  apply (write_not_found_blames_input
           SampleEnv.accepting_parse SampleEnv.missing_dir_write
           Samples.plain_namespaces Samples.escape_none Samples.escape_none
           (lit "in.vssettings") (Some (lit "gone/out.xml"))
           (root := Samples.root_zao)
           (msg := lit "No such file or directory")); reflexivity.
Defined.

(* ================================================================== *)
(** ** The command line *)

Lemma truthy_false (s : str) : truthy s = false <-> s = [].
Proof. destruct s; simpl; split; congruence. Qed.

Section MainFacts.

Variable ET_parse : str -> exn + Element.
Variable write_file : option str -> str -> exn + unit.
Variable ET_namespaces : Element -> (str -> str) * list (str * str).
Variable escape_cdata escape_attrib : str -> str.
Variable parse_args : nat + Args.Namespace.
Variable expanduser abspath : str -> str.
Variable isfile isdir : str -> bool.
Variable getcwd : str.
Variable os_path_split : str -> str * str.
Variable os_path_join : str -> str -> str.

(** The ways a run of [main] goes: [argparse] exits; an argument is
    refused, with one line on the error stream and nothing else done; or
    the arguments pass and the run is the run of [process_settings_file] on
    the paths worked out from them. *)
Lemma main_cases :
  let run_main :=
    Run.run (main ET_parse write_file ET_namespaces escape_cdata
                  escape_attrib parse_args expanduser abspath isfile isdir
                  getcwd os_path_split os_path_join) in
  (exists status, parse_args = inl status /\ run_main = ([], SysExit status))
  \/ (exists args line,
         parse_args = inr args /\ run_main = ([EvStderr line], SysExit 1))
  \/ (exists args dir file,
         parse_args = inr args
         /\ let input :=
              expand_path expanduser abspath (strip (Args.input_file args)) in
            let output :=
              expand_path expanduser abspath (strip (Args.output args)) in
            endswith (lit ".vssettings") (strip (Args.input_file args)) = true
            /\ isfile input = true
            /\ file = snd (os_path_split output)
            /\ endswith (lit ".vssettings") file = false
            /\ (fst (os_path_split output) = []
                /\ dir = (if eqb (fst (os_path_split input)) [] then getcwd
                          else fst (os_path_split input))
                \/ fst (os_path_split output) <> []
                   /\ dir = fst (os_path_split output) /\ isdir dir = true)
            /\ run_main
               = Run.run (process_settings_file ET_parse write_file
                            ET_namespaces escape_cdata escape_attrib input
                            (Some (os_path_join dir file)))).
Proof.
  cbv zeta. unfold main.
  destruct parse_args as [status|args];
    [left; exists status; split; reflexivity|].
  right.
  destruct (negb (truthy (strip (Args.input_file args)))) eqn:E1;
    [left; eexists; eexists; split; reflexivity|].
  destruct (negb (endswith (lit ".vssettings")
                           (strip (Args.input_file args)))) eqn:E2;
    [left; eexists; eexists; split; reflexivity|].
  destruct (negb (isfile (expand_path expanduser abspath
                            (strip (Args.input_file args))))) eqn:E3;
    [left; eexists; eexists; split; reflexivity|].
  destruct (negb (truthy (Args.output args))) eqn:E4;
    [left; eexists; eexists; split; reflexivity|].
  destruct (negb (truthy (strip (Args.output args)))) eqn:E5;
    [left; eexists; eexists; split; reflexivity|].
  apply negb_false_iff in E2, E3.
  destruct (os_path_split (expand_path expanduser abspath
                             (strip (Args.output args))))
    as [output_dir output_file] eqn:Es.
  cbn [fst snd].
  destruct (negb (truthy output_dir)) eqn:E6.
  - apply negb_true_iff, truthy_false in E6.
    destruct (endswith (lit ".vssettings") output_file) eqn:E8;
      [left; eexists; eexists; split; reflexivity|].
    right.
    exists args,
      (if eqb (fst (os_path_split
                      (expand_path expanduser abspath
                                   (strip (Args.input_file args))))) []
       then getcwd
       else fst (os_path_split
                   (expand_path expanduser abspath
                                (strip (Args.input_file args))))),
      output_file.
    split; [reflexivity|]. cbv zeta. rewrite Es. cbn [fst snd].
    repeat split; try assumption.
    left; split; [exact E6 | reflexivity].
  - apply negb_false_iff in E6. rewrite E6. cbn [andb].
    destruct (negb (isdir output_dir)) eqn:E7;
      [left; eexists; eexists; split; reflexivity|].
    apply negb_false_iff in E7.
    destruct (endswith (lit ".vssettings") output_file) eqn:E8;
      [left; eexists; eexists; split; reflexivity|].
    right. exists args, output_dir, output_file.
    split; [reflexivity|]. cbv zeta. rewrite Es. cbn [fst snd].
    repeat split; try assumption.
    right; repeat split; [|exact E7].
    intros ->; discriminate.
Qed.

End MainFacts.

Section MainTheorems.

Variable ET_parse : str -> exn + Element.
Variable write_file : option str -> str -> exn + unit.
Variable ET_namespaces : Element -> (str -> str) * list (str * str).
Variable escape_cdata escape_attrib : str -> str.
Variable parse_args : nat + Args.Namespace.
Variable expanduser abspath : str -> str.
Variable isfile isdir : str -> bool.
Variable getcwd : str.
Variable os_path_split : str -> str * str.
Variable os_path_join : str -> str -> str.

(** X14: [main] parses nothing but a validated input: whenever a run of
    [main] parses a path, that path is the input argument, stripped and
    expanded; the stripped argument ends with [.vssettings]; and the path is
    that of an existing file. *)
Theorem main_parses_validated_input :
  Forall (fun p =>
            exists args,
              parse_args = inr args
              /\ p = expand_path expanduser abspath
                                 (strip (Args.input_file args))
              /\ endswith (lit ".vssettings")
                          (strip (Args.input_file args)) = true
              /\ isfile p = true)
         (parsed_paths
            (fst (Run.run (main ET_parse write_file ET_namespaces
                                escape_cdata escape_attrib parse_args
                                expanduser abspath isfile isdir getcwd
                                os_path_split os_path_join)))).
Proof.
  destruct (main_cases ET_parse write_file ET_namespaces escape_cdata
                       escape_attrib parse_args expanduser abspath isfile
                       isdir getcwd os_path_split os_path_join)
    as [(status & Hp & Hr) | [(args & line & Hp & Hr)
                             | (args & dir & file & Hp & H)]].
  - rewrite Hr. constructor.
  - rewrite Hr. constructor.
  - cbv zeta in H. destruct H as (Hin & Hfile & _ & _ & _ & Hr).
    rewrite Hr, process_settings_file_run. cbv zeta.
    assert (Hgoal : exists args0,
               parse_args = inr args0
               /\ expand_path expanduser abspath (strip (Args.input_file args))
                  = expand_path expanduser abspath
                                (strip (Args.input_file args0))
               /\ endswith (lit ".vssettings")
                           (strip (Args.input_file args0)) = true
               /\ isfile (expand_path expanduser abspath
                                      (strip (Args.input_file args))) = true)
      by (exists args; repeat split; assumption).
    destruct (ET_parse _) as [e|root];
      [|destruct (write_file _ _) as [e|u]];
      cbn [fst parsed_paths flat_map app];
      (constructor; [exact Hgoal | constructor]).
Qed.

(** X15: [main] writes only where the checks allow: whenever a run of
    [main] attempts a write, the path is [os.path.join] of a directory and a
    file name, the file name being the last component of the output
    argument, stripped and expanded, and not ending with [.vssettings]; the
    directory is that of the output argument, which exists, or, when the
    output argument has none, the directory of the input file, the current
    directory if that is empty. *)
Theorem main_writes_checked_output :
  Forall (fun w =>
            exists args dir file,
              parse_args = inr args
              /\ w = Some (os_path_join dir file)
              /\ let input :=
                   expand_path expanduser abspath
                               (strip (Args.input_file args)) in
                 let output :=
                   expand_path expanduser abspath
                               (strip (Args.output args)) in
                 file = snd (os_path_split output)
                 /\ endswith (lit ".vssettings") file = false
                 /\ (fst (os_path_split output) = []
                     /\ dir = (if eqb (fst (os_path_split input)) []
                               then getcwd else fst (os_path_split input))
                     \/ fst (os_path_split output) <> []
                        /\ dir = fst (os_path_split output)
                        /\ isdir dir = true))
         (written_paths
            (fst (Run.run (main ET_parse write_file ET_namespaces
                                escape_cdata escape_attrib parse_args
                                expanduser abspath isfile isdir getcwd
                                os_path_split os_path_join)))).
Proof.
  destruct (main_cases ET_parse write_file ET_namespaces escape_cdata
                       escape_attrib parse_args expanduser abspath isfile
                       isdir getcwd os_path_split os_path_join)
    as [(status & Hp & Hr) | [(args & line & Hp & Hr)
                             | (args & dir & file & Hp & H)]].
  - rewrite Hr. constructor.
  - rewrite Hr. constructor.
  - cbv zeta in H. destruct H as (_ & _ & Hf & Hext & Hdir & Hr).
    rewrite Hr, process_settings_file_run. cbv zeta.
    destruct (ET_parse _) as [e|root];
      [constructor | destruct (write_file _ _) as [e|u]];
      cbn [fst written_paths flat_map app];
      (constructor; [|constructor]);
      exists args, dir, file; cbv zeta; repeat split; assumption.
Qed.


(** X17: an input argument made of whitespace only is refused as not
    specified: one line on the error stream, exit status 1, and no file is
    looked at, parsed or written. *)
Theorem main_blank_input (args : Args.Namespace) :
  parse_args = inr args ->
  forallb isspace (Args.input_file args) = true ->
  Run.run (main ET_parse write_file ET_namespaces escape_cdata
                escape_attrib parse_args expanduser abspath isfile isdir
                getcwd os_path_split os_path_join)
  = ([EvStderr (lit "Error: Input file must be specified")], SysExit 1).
Proof.
  intros Hp Hs. apply strip_nil in Hs.
  unfold main. rewrite Hp, Hs. reflexivity.
Qed.

End MainTheorems.

Lemma main_blank_input_witness :
  forallb isspace
          (Args.input_file (Args.mk (lit "   ") (lit "out.xml"))) = true
  /\ Run.run (main SampleEnv.accepting_parse Samples.accepting_write
                   Samples.plain_namespaces Samples.escape_none
                   Samples.escape_none SampleEnv.blank_args
                   SampleEnv.expanduser SampleEnv.abspath SampleEnv.isfile
                   SampleEnv.isdir SampleEnv.getcwd SampleEnv.os_path_split
                   SampleEnv.os_path_join)
     = ([EvStderr (lit "Error: Input file must be specified")], SysExit 1).
Proof.
  split; [reflexivity|].
  apply (main_blank_input SampleEnv.accepting_parse Samples.accepting_write
           Samples.plain_namespaces Samples.escape_none Samples.escape_none
           SampleEnv.expanduser SampleEnv.abspath SampleEnv.isfile
           SampleEnv.isdir SampleEnv.getcwd SampleEnv.os_path_split
           SampleEnv.os_path_join
           (parse_args := SampleEnv.blank_args)
           (args := Args.mk (lit "   ") (lit "out.xml")));
    reflexivity.
Defined.

(** A whole run of [main] in the sample environment: the output, given
    without a directory, goes to the current directory. *)
Example main_sample_run :
  Run.run (main SampleEnv.accepting_parse Samples.accepting_write
                Samples.plain_namespaces Samples.escape_none
                Samples.escape_none SampleEnv.good_args
                SampleEnv.expanduser SampleEnv.abspath SampleEnv.isfile
                SampleEnv.isdir SampleEnv.getcwd SampleEnv.os_path_split
                SampleEnv.os_path_join)
  = ([EvRegisterNamespace [] (lit "http://www.w3.org/XML/1998/namespace");
      EvParse (lit "in.vssettings");
      EvWrite (Some (lit "/work/out.xml"))
        (tostring_unicode Samples.plain_namespaces Samples.escape_none
                          Samples.escape_none (processed Samples.root_zao));
      EvStdout (lit "Sorted settings written to: /work/out.xml")],
     Return tt).
Proof. vm_compute. reflexivity. Qed.
